(** * Isometric engine: world rendering and glyph atlas packing

    A shallow embedding of two translation units of the engine:

    - [simple_bitmap_font.cpp]: the shelf packer [generate_glyph_srcrects]
      that assigns every rasterised glyph a source rectangle and an atlas
      page (module [Font]); the constructors, [create] with its three
      stages and [destroy] (module [FontObject]);
    - [world.cpp]: the per-frame [world::render] loop with its visible
      region computation, layer compositing, default-image write-back and
      selection hit-testing, together with the selection accessors
      (module [World]); the tile counts and the game object list
      (module [WorldMore]).

    C++ [int] and [unsigned] values are integers of [Z].  [float] values
    are rationals of [Q] and [float] arithmetic is exact: the model
    computes what the expressions denote before rounding.  The two agree
    on the concrete scenes used below, whose values are small dyadic
    rationals (module [Binary32] replays one of them in single
    precision).  Conversions whose behaviour the language leaves undefined
    are faults of the model, as are dereferences of null pointers. *)

From Stdlib Require Import ZArith QArith Qround Qminmax SpecFloat Lia Lqa.
From stdpp Require Import base option list gmap.

Local Open Scope Z_scope.

(** ** Rectangles shared by both units *)

Record SDL_Rect := mkRect { rect_x : Z; rect_y : Z; rect_w : Z; rect_h : Z }.

Record SDL_Point := mkPoint { point_x : Z; point_y : Z }.

(** Two rectangles overlap when their interiors meet. *)
Definition rects_overlap (a b : SDL_Rect) : Prop :=
  rect_x a < rect_x b + rect_w b /\ rect_x b < rect_x a + rect_w a /\
  rect_y a < rect_y b + rect_h b /\ rect_y b < rect_y a + rect_h a.

(** [inner] lies inside a page whose recorded bounds are [page]; pages are
    always anchored at the origin. *)
Definition rect_inside (inner page : SDL_Rect) : Prop :=
  rect_x page <= rect_x inner /\ rect_y page <= rect_y inner /\
  rect_x inner + rect_w inner <= rect_x page + rect_w page /\
  rect_y inner + rect_h inner <= rect_y page + rect_h page.

(** * Part I: the programs and the vocabulary of the claims *)

(** ** Glyph atlas builder *)

Module Font.

(** The part of an [SDL_Surface] the packer reads. *)
Record SDL_Surface := mkSurface { surface_w : Z; surface_h : Z }.

Record glyph_info := mkGlyph {
  surface : SDL_Surface;
  srcrect : SDL_Rect;
  texture_index : nat
}.

(** [font_info.glyphs] is a map keyed by character; the packer only
    iterates it, so it is kept as the association list of its entries in
    iteration order.  [font_info.textures] holds, per page, the recorded
    bounds (the texture pointer is null until the pages are materialised). *)
Record bitmap_font_info := mkFontInfo {
  glyphs : list (Z * glyph_info);
  textures : list SDL_Rect
}.

Definition max_texture_width : Z := 2048.
Definition max_texture_height : Z := 2048.

(** The local variables of [generate_glyph_srcrects], with the page list
    the loop appends to ([x], [y] and [texture_index] of the source are
    [cur_x], [cur_y] and [cur_index]). *)
Record pack_state := mkPack {
  cur_x : Z;
  cur_y : Z;
  row_height : Z;
  texture_width : Z;
  texture_height : Z;
  cur_index : nat;
  pages : list SDL_Rect
}.

Definition pack_init : pack_state := mkPack 0 0 0 0 0 0%nat [].

(** One iteration of the loop body, statement by statement. *)
Definition place (s : pack_state) (g : glyph_info) : pack_state * glyph_info :=
  let w := surface_w (surface g) in
  let h := surface_h (surface g) in
  (* the current row is as tall as its tallest glyph *)
  let rh1 := if row_height s <? h then h else row_height s in
  (* farthest x-extent reached: start a new row *)
  let '(x2, y2, rh2) :=
    if max_texture_width <=? cur_x s + w
    then (0, cur_y s + rh1, h)
    else (cur_x s, cur_y s, rh1) in
  (* farthest y-extent reached: record the page, move to the next one *)
  let '(x3, y3, tw3, th3, idx3, pages3) :=
    if max_texture_height <=? y2 + h
    then (0, 0, 0, 0, S (cur_index s),
          pages s ++ [mkRect 0 0 (texture_width s) (texture_height s)])
    else (x2, y2, texture_width s, texture_height s, cur_index s, pages s) in
  let g' := mkGlyph (surface g) (mkRect x3 y3 w h) idx3 in
  let x4 := x3 + w in
  let tw4 := if tw3 <? x4 then x4 else tw3 in
  let th4 := if th3 <? y3 + rh2 then y3 + rh2 else th3 in
  (mkPack x4 y3 rh2 tw4 th4 idx3 pages3, g').

Fixpoint pack_loop (s : pack_state) (gl : list (Z * glyph_info))
  : pack_state * list (Z * glyph_info) :=
  match gl with
  | [] => (s, [])
  | (c, g) :: rest =>
      let '(s1, g1) := place s g in
      let '(s2, rest') := pack_loop s1 rest in
      (s2, (c, g1) :: rest')
  end.

(** The page still open when the loop ends is recorded only when it has a
    positive area. *)
Definition finish (s : pack_state) : list SDL_Rect :=
  if (0 <? texture_width s) && (0 <? texture_height s)
  then pages s ++ [mkRect 0 0 (texture_width s) (texture_height s)]
  else pages s.

Definition generate_glyph_srcrects (fi : bitmap_font_info) : bitmap_font_info :=
  match textures fi, glyphs fi with
  | _ :: _, _ => fi
  | [], [] => fi
  | [], gl =>
      let '(s, gl') := pack_loop pack_init gl in
      mkFontInfo gl' (finish s)
  end.

(** What [generate_glyph_surfaces] stores for a rasterised glyph of the
    given size: the whole surface as rectangle, page 0. *)
Definition fresh_glyph (w h : Z) : glyph_info :=
  mkGlyph (mkSurface w h) (mkRect 0 0 w h) 0%nat.

Definition fresh_font (sizes : list (Z * (Z * Z))) : bitmap_font_info :=
  mkFontInfo (map (fun e => (e.1, fresh_glyph e.2.1 e.2.2)) sizes) [].

End Font.

(** ** Invariants of the packing loop *)

Module FontInv.
Import Font.

(** Glyphs on different pages never collide; on one page their rectangles
    must not overlap. *)
Definition disjoint (a b : glyph_info) : Prop :=
  texture_index a = texture_index b ->
  ~ rects_overlap (srcrect a) (srcrect b).

Fixpoint all_disjoint (l : list glyph_info) : Prop :=
  match l with
  | [] => True
  | a :: rest => Forall (disjoint a) rest /\ all_disjoint rest
  end.

(** A glyph of the page still being filled: inside the bounds tracked so
    far, and either in a finished row above the cursor or in the cursor's
    row to its left. *)
Definition on_current (s : pack_state) (g : glyph_info) : Prop :=
  let r := srcrect g in
  0 <= rect_x r /\ 0 <= rect_y r /\
  rect_x r + rect_w r <= texture_width s /\
  rect_y r + rect_h r <= texture_height s /\
  (rect_y r + rect_h r <= cur_y s \/
   (rect_y r = cur_y s /\ rect_x r + rect_w r <= cur_x s /\
    rect_h r <= row_height s)).

Definition placed_ok (s : pack_state) (g : glyph_info) : Prop :=
  match pages s !! texture_index g with
  | Some p => rect_inside (srcrect g) p
  | None => texture_index g = cur_index s /\ on_current s g
  end.

Definition pack_inv (s : pack_state) (prev : list glyph_info) : Prop :=
  cur_index s = length (pages s) /\
  0 <= cur_x s /\ 0 <= cur_y s /\ 0 <= row_height s /\
  Forall (placed_ok s) prev /\ all_disjoint prev.

(** Once a glyph of positive size sits on the open page, that page has a
    positive area. *)
Definition open_page_nonempty (s : pack_state) : Prop :=
  0 < texture_width s /\ 0 < texture_height s.

(** Size bounds kept by the loop when no glyph is larger than a page. *)
Definition size_inv (s : pack_state) : Prop :=
  (cur_y s = 0 \/ cur_y s + row_height s < max_texture_height) /\
  row_height s <= max_texture_height /\
  texture_width s <= max_texture_width /\
  texture_height s <= max_texture_height /\
  Forall (fun p => rect_w p <= max_texture_width /\
                   rect_h p <= max_texture_height) (pages s).

(** While the first page is still open its height stays strictly below
    the maximum; afterwards the recorded first page keeps that bound. *)
Definition first_page_inv (s : pack_state) : Prop :=
  match pages s with
  | [] => cur_y s + row_height s < max_texture_height /\
          texture_height s < max_texture_height
  | p :: _ => rect_h p < max_texture_height
  end.

Definition glyph_fits (g : glyph_info) : Prop :=
  surface_w (surface g) <= max_texture_width /\
  surface_h (surface g) <= max_texture_height.

Definition glyph_positive (g : glyph_info) : Prop :=
  0 < surface_w (surface g) /\ 0 < surface_h (surface g).

End FontInv.

(** ** What the packing claims ask *)

Module FontSpec.
Import Font.

(** What the packing claim asks of the result [out] of packing [inp]: the
    entries are those of the input, each with one page index naming a
    produced page that contains its rectangle, and rectangles sharing a
    page do not overlap. *)
Definition packing_sound (inp out : bitmap_font_info) : Prop :=
  map fst (glyphs out) = map fst (glyphs inp) /\
  (forall i c g, glyphs out !! i = Some (c, g) ->
     exists g0, glyphs inp !! i = Some (c, g0) /\
       surface g = surface g0 /\
       rect_w (srcrect g) = surface_w (surface g0) /\
       rect_h (srcrect g) = surface_h (surface g0) /\
       exists page, textures out !! texture_index g = Some page /\
                    rect_inside (srcrect g) page) /\
  (forall i j ci cj gi gj, i <> j ->
     glyphs out !! i = Some (ci, gi) -> glyphs out !! j = Some (cj, gj) ->
     texture_index gi = texture_index gj ->
     ~ rects_overlap (srcrect gi) (srcrect gj)).

(** What the size claim asks of the produced pages. *)
Definition pages_within_maximum (out : bitmap_font_info) : Prop :=
  Forall (fun p => rect_w p <= 2048 /\ rect_h p <= 2048) (textures out) /\
  ((2 <= length (textures out))%nat ->
   exists p0, textures out !! 0%nat = Some p0 /\ rect_h p0 < 2048).


Definition sample_font : bitmap_font_info :=
  fresh_font [(65, (1200, 900)); (66, (1000, 1000)); (67, (700, 1100));
              (68, (2048, 300)); (69, (10, 2048))].

End FontSpec.

(** ** World: selection, visible region and the render loop *)

Module World.

Local Open Scope Z_scope.

Definition int_max : Z := 2147483647.
Definition int_min : Z := -2147483648.
Definition uint_max : Z := 4294967295.

(** *** Arithmetic of the loop bounds *)

(** A [float] converts to an integer type by discarding the fractional
    part; the conversion is undefined when the truncated value is not a
    value of the destination type. *)
Definition truncate (q : Q) : Z := Z.quot (Qnum q) (Zpos (Qden q)).

Definition static_cast_unsigned (q : Q) : option Z :=
  let t := truncate q in
  if (0 <=? t) && (t <=? uint_max) then Some t else None.

Definition static_cast_int (q : Q) : option Z :=
  let t := truncate q in
  if (int_min <=? t) && (t <=? int_max) then Some t else None.

(** [unsigned] addition wraps around. *)
Definition unsigned_add (a b : Z) : Z := (a + b) mod 2 ^ 32.

Definition Qltb (a b : Q) : bool := negb (Qle_bool b a).

(** [max_tiles_horiz] / [max_tiles_vert] before the clamp: the scroll
    position plus the number of half tiles in viewport-plus-one-tile plus
    one, converted to [unsigned].  A tile dimension of 0 divides by zero:
    the quotient is infinite or not a number, and the conversion is
    undefined. *)
Definition max_tiles_unclamped (scroll : Q) (viewport tile : Z) : option Z :=
  if tile =? 0 then None
  else static_cast_unsigned
         (scroll + inject_Z (unsigned_add viewport tile) / (inject_Z tile / 2) + 1)%Q.

(** ... and after [std::min] with the map dimension. *)
Definition max_tiles (scroll : Q) (viewport tile map_dim : Z) : option Z :=
  option_map (fun m => Z.min m map_dim) (max_tiles_unclamped scroll viewport tile).

(** The values a loop [for (float t = start; t < bound; t++)] gives its
    variable, for [fuel] iterations at most. *)
Fixpoint float_range (fuel : nat) (t : Q) (bound : Z) : list Q :=
  match fuel with
  | O => []
  | S fuel' =>
      if Qltb t (inject_Z bound)
      then t :: float_range fuel' (t + 1)%Q bound
      else []
  end.

(** [bound - floor start] iterations always reach the exit test
    ([ArithFacts.loop_values_terminates]): the list holds every iteration
    of the loop. *)
Definition loop_values (start : Q) (bound : Z) : list Q :=
  float_range (Z.to_nat (bound - Qfloor start)) start bound.

(** *** Data model *)

(** Modelled from the spec: the tile image class is not part of the
    sources; an image is a region of a texture addressed by an id. *)
Record tile_image := mkImage { image_id : Z; source_rect : SDL_Rect }.

(** Modelled from the spec: the tile class is not part of the sources; a
    tile carries, per layer, an optional image id (absent = empty). *)
Record tile := mkTile { tile_images : gmap nat Z }.

(** Modelled from the spec: [tile::has_image], true when the tile carries
    an image id for the layer. *)
Definition has_image (t : tile) (layer_id : nat) : bool :=
  bool_decide (is_Some (tile_images t !! layer_id)).

(** Modelled from the spec: [tile::get_image_id], the id the tile carries
    for the layer. *)
Definition get_image_id (t : tile) (layer_id : nat) : Z :=
  default 0 (tile_images t !! layer_id).

(** Modelled from the spec: [tile::set_image_id], which caches an id on
    the tile for the layer. *)
Definition set_image_id (t : tile) (layer_id : nat) (id : Z) : tile :=
  mkTile (<[layer_id := id]> (tile_images t)).

(** Modelled from the spec: the tile map class is not part of the sources.
    It has the grid dimensions in tiles, the pixel dimensions of a tile,
    the ordered layers each with its pool of default images (empty = no
    default), the grid of tiles, the registry of images by id and the
    optional selection image.  [get_tile] and [get_image] answer with a
    null pointer where nothing is stored. *)
Record tile_map := mkMap {
  map_width : Z;
  map_height : Z;
  tile_width : Z;
  tile_height : Z;
  layers : list (list Z);
  tiles : gmap (Z * Z) tile;
  images : gmap Z tile_image;
  selection_image : option tile_image
}.

(** Modelled from the spec: [tile_map::get_tile], a pointer to the tile
    object at the index, null where there is none. *)
Definition get_tile (m : tile_map) (x y : Z) : option tile := tiles m !! (x, y).

(** Modelled from the spec: [tile_map::get_image], the image registered
    under the id, null where there is none. *)
Definition get_image (m : tile_map) (id : Z) : option tile_image := images m !! id.

(** Modelled from the spec: [tile_map::layer_has_default_images], true
    when the pool of the layer is not empty. *)
Definition layer_has_default_images (m : tile_map) (layer_id : nat) : bool :=
  match layers m !! layer_id with
  | Some (_ :: _) => true
  | _ => false
  end.

(** Modelled from the spec: [tile_map::get_random_layer_default_image],
    the pool member picked when the random source yields [r]. *)
Definition get_random_layer_default_image (m : tile_map) (layer_id : nat)
    (r : nat) : Z :=
  match layers m !! layer_id with
  | Some pool => default 0 (pool !! (r mod length pool)%nat)
  | None => 0
  end.

(** Modelled from the spec: the camera class is not part of the sources; a
    camera has a viewport rectangle in pixels, a scroll position in tile
    units and an enabled flag. *)
Record camera := mkCamera {
  viewport_x : Z;
  viewport_y : Z;
  width : Z;
  height : Z;
  current_x : Q;
  current_y : Q;
  enabled : bool
}.

Record world := mkWorld {
  map : tile_map;
  cameras : list camera;
  objects : list (option nat);
  selected_world_tile : SDL_Point;
  update_called : bool
}.

Definition sentinel : SDL_Point := mkPoint int_max int_max.

Definition new_world (m : tile_map) (main_camera : option camera) : world :=
  mkWorld m (option_list main_camera) [] sentinel false.

Definition get_main_camera (w : world) : option camera :=
  List.find enabled (cameras w).

Definition update (w : world) : world :=
  mkWorld (map w) (cameras w) (objects w) (selected_world_tile w) true.

Definition set_selection (w : world) (tile_point : SDL_Point) : world :=
  mkWorld (map w) (cameras w) (objects w) tile_point (update_called w).

Definition has_selection (w : world) : bool :=
  negb (point_x (selected_world_tile w) =? int_max) &&
  negb (point_y (selected_world_tile w) =? int_max).

Definition get_selection (w : world) : SDL_Point := selected_world_tile w.

Definition reset_selection (w : world) : world :=
  mkWorld (map w) (cameras w) (objects w)
          (mkPoint int_max int_max) (update_called w).

(** *** Effects of a frame *)

(** Calls that leave the world object: rendering backend, diagnostic
    stream, map accessors and game objects, in the order they happen.
    [SetSelection] records the call of the world's own [set_selection].
    The render callback of a game object is opaque; it is taken not to
    reach back into the world or the map. *)
Inductive event :=
| Warn
| SetClipRect (clip : option SDL_Rect)
| GetTile (x y : Z)
| SetImageId (x y : Z) (layer_id : nat) (id : Z)
| RenderTile (img : tile_image) (tile_point : SDL_Point) (layer_id : nat)
| SetSelection (tile_point : SDL_Point)
| SetTextureAlphaMod (img : tile_image) (alpha : Z)
| RenderSelection (img : tile_image) (tile_point : SDL_Point)
| ObjectRender (obj : nat).

Inductive fault := NullDereference | UndefinedConversion.

Inductive result (A : Type) :=
| Done (a : A)
| Fault (f : fault).
Arguments Done {A} a.
Arguments Fault {A} f.

(** Modelled from the spec: the coordinate transform and the input
    collaborator are not part of the sources.  For the frame being
    rendered, [hit p] says whether the cursor lies in the diamond of the
    tile [p] ([tile_hittest_by_viewport] applied to the screen position of
    [p] and the mouse position), and [rand n] is the [n]-th number the
    random source yields. *)
Record frame := mkFrame {
  hit : SDL_Point -> bool;
  rand : nat -> nat
}.

Record rstate := mkState {
  st_world : world;
  st_trace : list event;
  st_draws : nat
}.

Definition M (A : Type) : Type := rstate -> rstate * result A.

Definition ret {A} (a : A) : M A := fun s => (s, Done a).

Definition bind {A B} (m : M A) (f : A -> M B) : M B :=
  fun s => match m s with
           | (s', Done a) => f a s'
           | (s', Fault e) => (s', Fault e)
           end.

Notation "'let*' x := m 'in' k" := (bind m (fun x => k))
  (at level 10, x name, m at level 100, k at level 200).
Notation "m >> k" := (bind m (fun _ => k))
  (at level 100, k at level 200, right associativity).

Definition throw {A} (e : fault) : M A := fun s => (s, Fault e).

Definition get_world : M world := fun s => (s, Done (st_world s)).

(** An in-place update of the world object. *)
Definition modify_world (g : world -> world) : M unit :=
  fun s => (mkState (g (st_world s)) (st_trace s) (st_draws s), Done tt).

Definition emit (e : event) : M unit :=
  fun s => (mkState (st_world s) (st_trace s ++ [e]) (st_draws s), Done tt).

(** Ask the random source for its next number. *)
Definition next_random (f : frame) : M nat :=
  fun s => (mkState (st_world s) (st_trace s) (S (st_draws s)),
            Done (rand f (st_draws s))).

Definition defined {A} (e : fault) (o : option A) : M A :=
  match o with
  | Some a => ret a
  | None => throw e
  end.

Fixpoint for_each {A} (l : list A) (body : A -> M unit) : M unit :=
  match l with
  | [] => ret tt
  | a :: rest => body a >> for_each rest body
  end.

(** A loop that threads a local variable through its iterations. *)
Fixpoint for_fold {A B} (l : list A) (acc : B) (body : A -> B -> M B) : M B :=
  match l with
  | [] => ret acc
  | a :: rest => let* acc' := body a acc in for_fold rest acc' body
  end.

Definition with_map (w : world) (m : tile_map) : world :=
  mkWorld m (cameras w) (objects w) (selected_world_tile w) (update_called w).

(** The map after [g] has run on the tile object that [get_tile] answers
    for [(x, y)]. *)
Definition update_tile (m : tile_map) (x y : Z) (g : tile -> tile) : tile_map :=
  mkMap (map_width m) (map_height m) (tile_width m) (tile_height m)
        (layers m) (alter g (x, y) (tiles m)) (images m) (selection_image m).

(** [current_tile->set_image_id(layer_id, id)] through the pointer that
    [get_tile] returned for [(x, y)]. *)
Definition store_image_id (x y : Z) (layer_id : nat) (id : Z) : M unit :=
  let* w := get_world in
  match get_tile (map w) x y with
  | None => throw NullDereference
  | Some _ =>
      modify_world (fun w =>
        with_map w (update_tile (map w) x y
                      (fun t => set_image_id t layer_id id))) >>
      emit (SetImageId x y layer_id id)
  end.

(** [set_selection(tile_point)] called from the frame. *)
Definition select_tile (tile_point : SDL_Point) : M unit :=
  modify_world (fun w => set_selection w tile_point) >>
  emit (SetSelection tile_point).

(** [update_called = false]. *)
Definition clear_update_called : M unit :=
  modify_world (fun w =>
    mkWorld (map w) (cameras w) (objects w) (selected_world_tile w) false).

(** First half of the layer body: the image of the tile for this layer.
    The outer [None] is the [continue] of the empty tile. *)
Definition resolve_image (f : frame) (x y : Z) (layer_id : nat)
  : M (option (option tile_image)) :=
  let* w := get_world in
  let m := map w in
  let current_tile := get_tile m x y in
  if match current_tile with
     | Some t => has_image t layer_id
     | None => false
     end
  then
    (* the tile is not empty: its image *)
    let* t := defined NullDereference current_tile in
    ret (Some (get_image m (get_image_id t layer_id)))
  else if layer_has_default_images m layer_id
  then
    (* the tile is empty: a default image, remembered on the tile *)
    let* r := next_random f in
    let current_image :=
      get_image m (get_random_layer_default_image m layer_id r) in
    let* img := defined NullDereference current_image in
    (store_image_id x y layer_id (image_id img) >>
     ret (Some current_image))
  else ret None.

Definition tile_has_image (m : tile_map) (x y : Z) (layer_id : nat) : bool :=
  match get_tile m x y with
  | Some t => has_image t layer_id
  | None => false
  end.

(** The body of the layer loop; [is_selected] is the local flag of the
    enclosing tile iteration. *)
Definition render_layer (f : frame) (x y : Z) (tile_point : SDL_Point)
    (layer_id : nat) (is_selected : bool) : M bool :=
  let* resolved := resolve_image f x y layer_id in
  match resolved with
  | None => ret is_selected
  | Some current_image =>
      let* w := get_world in
      (match current_image with
       | Some img =>
           if tile_has_image (map w) x y layer_id
           then emit (RenderTile img tile_point layer_id)
           else ret tt
       | None => ret tt
       end >>
       let* is_selected' :=
         (if hit f tile_point
          then select_tile tile_point >> ret true
          else ret is_selected) in
       (match layer_id, is_selected', selection_image (map w) with
        | O, true, Some selection_image =>
            emit (SetTextureAlphaMod selection_image 90) >>
            emit (RenderSelection selection_image tile_point) >>
            emit (SetTextureAlphaMod selection_image 255)
        | _, _, _ => ret tt
        end >>
        ret is_selected'))
  end.

(** The body of the two tile loops for the loop variables [tile_x] and
    [tile_y]. *)
Definition render_tile (f : frame) (tile_x tile_y : Q) : M unit :=
  let* x := defined UndefinedConversion (static_cast_unsigned tile_x) in
  let* y := defined UndefinedConversion (static_cast_unsigned tile_y) in
  emit (GetTile x y) >>
  let* px := defined UndefinedConversion (static_cast_int tile_x) in
  let* py := defined UndefinedConversion (static_cast_int tile_y) in
  let* w := get_world in
  (for_fold (seq 0 (length (layers (map w)))) false
            (render_layer f x y (mkPoint px py)) >>
   ret tt).

(** [static_cast<int>] of an [unsigned]: the value modulo 2^32 in the
    range of [int]. *)
Definition unsigned_to_int (u : Z) : Z :=
  if u <=? int_max then u else u - 2 ^ 32.

Definition render (f : frame) : M unit :=
  let* w := get_world in
  ((if update_called w then ret tt else emit Warn) >>
   match get_main_camera w with
   | None => ret tt (* no point in rendering if there is no camera *)
   | Some camera =>
       let m := map w in
       emit (SetClipRect (Some (mkRect (unsigned_to_int (viewport_x camera))
                                       (unsigned_to_int (viewport_y camera))
                                       (unsigned_to_int (width camera))
                                       (unsigned_to_int (height camera))))) >>
       let* max_tiles_horiz :=
         defined UndefinedConversion
           (max_tiles (current_x camera) (width camera) (tile_width m)
                      (map_width m)) in
       let* max_tiles_vert :=
         defined UndefinedConversion
           (max_tiles (current_y camera) (height camera) (tile_height m)
                      (map_height m)) in
       (for_each (loop_values (current_y camera) max_tiles_vert) (fun tile_y =>
          for_each (loop_values (current_x camera) max_tiles_horiz) (fun tile_x =>
            render_tile f tile_x tile_y)) >>
        for_each (objects w) (fun obj =>
          match obj with
          | Some o => emit (ObjectRender o)
          | None => ret tt
          end) >>
        emit (SetClipRect None) >>
        clear_update_called)
   end).

(** A frame rendered from world [w]: the final state (world, calls made)
    and whether [render] returned. *)
Definition run_render (f : frame) (w : world) : rstate * result unit :=
  render f (mkState w [] 0%nat).

End World.

(** ** The bound computation in single precision *)

Module Binary32.
Import World.







End Binary32.

(** ** Reasoning about frames *)

Module WorldLogic.
Import World.

(** [m] relates every state to the state it leaves, whether it returns or
    stops at a fault. *)
Definition respects {A} (R : rstate -> rstate -> Prop) (m : M A) : Prop :=
  forall s s' r, m s = (s', r) -> R s s'.

End WorldLogic.

Module WorldInv.
Import World WorldLogic.

(** The image id a tile carries for a layer, if the tile exists and has
    one. *)
Definition stored_id (m : tile_map) (x y : Z) (layer_id : nat) : option Z :=
  match get_tile m x y with
  | Some t => tile_images t !! layer_id
  | None => None
  end.

(** The parts of a map that no frame changes. *)
Definition map_config (m : tile_map) :=
  (map_width m, map_height m, tile_width m, tile_height m, layers m,
   images m, selection_image m).

Definition selection (s : rstate) : SDL_Point :=
  selected_world_tile (st_world s).

Definition st_map (s : rstate) : tile_map := map (st_world s).

(** [id] is the id of a registered image that the default pool of the
    layer yields for some number of the random source. *)
Definition default_choice (m : tile_map) (layer_id : nat) (id : Z) : Prop :=
  exists r img,
    get_image m (get_random_layer_default_image m layer_id r) = Some img /\
    id = image_id img.

(** What may be said of a call made while the frame runs from state [s]:
    [Cxy] holds of the tile indices used, [Cp] of the points selected; an
    image id is stored only on a tile that has none for a layer with
    default images, and a tile is selected only when the hit-test
    succeeds. *)
Definition event_ok (Cxy : Z -> Z -> Prop) (Cp : SDL_Point -> Prop)
    (f : frame) (s : rstate) (e : event) : Prop :=
  match e with
  | GetTile x y => Cxy x y
  | SetImageId x y layer_id id =>
      Cxy x y /\ stored_id (st_map s) x y layer_id = None /\
      layer_has_default_images (st_map s) layer_id = true /\
      default_choice (st_map s) layer_id id
  | SetSelection p => Cp p /\ hit f p = true
  | _ => True
  end.

(** The relation between a state of a frame and any later state of it. *)
Record frame_step (Cxy : Z -> Z -> Prop) (Cp : SDL_Point -> Prop)
    (f : frame) (s s' : rstate) : Prop := mkStep {
  fs_config : map_config (st_map s') = map_config (st_map s);
  fs_cameras : cameras (st_world s') = cameras (st_world s);
  fs_objects : objects (st_world s') = objects (st_world s);
  fs_tiles : forall x y,
    is_Some (get_tile (st_map s') x y) <-> is_Some (get_tile (st_map s) x y);
  fs_stored : forall x y l id,
    stored_id (st_map s) x y l = Some id ->
    stored_id (st_map s') x y l = Some id;
  fs_fresh : forall x y l,
    stored_id (st_map s) x y l = None ->
    is_Some (stored_id (st_map s') x y l) ->
    layer_has_default_images (st_map s) l = true;
  fs_written : forall x y l id,
    stored_id (st_map s) x y l = None ->
    stored_id (st_map s') x y l = Some id ->
    In (SetImageId x y l id) (st_trace s');
  fs_trace : exists new,
    st_trace s' = st_trace s ++ new /\ Forall (event_ok Cxy Cp f s) new;
  fs_selection :
    selection s' = selection s \/
    (Cp (selection s') /\ hit f (selection s') = true)
}.

(** The tiles the two loops of [render] visit, row by row. *)
Definition visible_tiles (w : world) : list (Q * Q) :=
  match get_main_camera w with
  | None => []
  | Some camera =>
      match max_tiles (current_x camera) (width camera)
                      (tile_width (map w)) (map_width (map w)),
            max_tiles (current_y camera) (height camera)
                      (tile_height (map w)) (map_height (map w)) with
      | Some max_tiles_horiz, Some max_tiles_vert =>
          flat_map (fun tile_y =>
                      List.map (fun tile_x => (tile_x, tile_y))
                               (loop_values (current_x camera) max_tiles_horiz))
                   (loop_values (current_y camera) max_tiles_vert)
      | _, _ => []
      end
  end.

(** The point [render] would select for the loop variables [(tx, ty)]. *)
Definition tile_point_of (t : Q * Q) : option SDL_Point :=
  match static_cast_int t.1, static_cast_int t.2 with
  | Some px, Some py => Some (mkPoint px py)
  | _, _ => None
  end.

Definition tile_index_of (t : Q * Q) : option (Z * Z) :=
  match static_cast_unsigned t.1, static_cast_unsigned t.2 with
  | Some x, Some y => Some (x, y)
  | _, _ => None
  end.

End WorldInv.

Module SelectDefs.
Import World WorldLogic WorldInv.





End SelectDefs.

Module BoundSpec.
Import World.



End BoundSpec.

(** ** Concrete scenes *)

Module Scenes.
Import World.

Definition grass : tile_image := mkImage 7 (mkRect 0 0 64 32).

Definition empty_tile : tile := mkTile ∅.

(** A [cols] by [rows] grid of empty tiles. *)
Definition empty_grid (cols rows : nat) : gmap (Z * Z) tile :=
  list_to_map
    (flat_map (fun y => List.map (fun x => ((Z.of_nat x, Z.of_nat y), empty_tile))
                                 (seq 0 cols))
              (seq 0 rows)).

(** The 4x4 map with one layer without default images whose tile (2,2)
    has an explicit image. *)
Definition map4 : tile_map :=
  mkMap 4 4 64 32 [[]]
        (<[(2, 2) := mkTile {[0%nat := 7]}]> (empty_grid 4 4))
        {[7 := grass]} None.


Definition camera0 : camera := mkCamera 0 0 640 480 0 0 true.


Definition world4 : world := update (new_world map4 (Some camera0)).



Definition world4_no_camera : world := update (new_world map4 None).

(** A frame during which the cursor is over the tile [p] only. *)
Definition cursor_over (p : SDL_Point) : frame :=
  mkFrame (fun q => (point_x q =? point_x p) && (point_y q =? point_y p))
          (fun n => n).

Definition cursor_nowhere : frame := mkFrame (fun _ => false) (fun n => n).

(** A one-tile map whose layer has a default pool, but whose grid has no
    tile object at (0,0). *)
Definition map_missing_tile : tile_map :=
  mkMap 1 1 64 32 [[7]] ∅ {[7 := grass]} None.

(** A one-tile map whose default pool names an image that is not
    registered. *)
Definition map_unregistered_default : tile_map :=
  mkMap 1 1 64 32 [[8]] {[(0, 0) := empty_tile]} {[7 := grass]} None.

(** A selection whose first component alone has the sentinel value. *)
Definition half_sentinel_world : world :=
  set_selection world4 (mkPoint int_max 0).

End Scenes.

Module ClaimDefs.
Import World WorldLogic WorldInv.






Definition is_draw (e : event) : bool :=
  match e with
  | RenderTile _ _ _ => true
  | _ => false
  end.


End ClaimDefs.

(** ** More of the glyph atlas builder *)

Module FontMore.
Import Font.

(** The layout of glyphs that share the first row of the first page: each
    starts where the one before it ends. *)
Fixpoint row_layout (x : Z) (gl : list (Z * glyph_info))
  : list (Z * glyph_info) :=
  match gl with
  | [] => []
  | (c, g) :: rest =>
      (c, mkGlyph (surface g)
                  (mkRect x 0 (surface_w (surface g)) (surface_h (surface g)))
                  0%nat)
      :: row_layout (x + surface_w (surface g)) rest
  end.

Definition total_width (gl : list (Z * glyph_info)) : Z :=
  fold_right (fun e acc => surface_w (surface e.2) + acc) 0 gl.

Definition max_height (gl : list (Z * glyph_info)) : Z :=
  fold_right (fun e acc => Z.max (surface_h (surface e.2)) acc) 0 gl.

Definition sample_row : bitmap_font_info :=
  fresh_font [(65, (10, 20)); (66, (12, 24)); (67, (0, 30)); (68, (9, 18))].

End FontMore.

(** ** The font object: construction and destruction *)

Module FontObject.
Import Font.




(** [generate_glyph_surfaces].  [font_info.glyphs] is a map keyed by
    character; [rasterize c] is what [TTF_RenderGlyph_Blended] answers for
    [c] (no surface on failure), [font] says whether the font pointer is
    set.  Nothing happens without a font or without characters;
    otherwise the map is cleared and gets an entry for every character
    that has a surface, a later duplicate replacing an earlier one. *)
Definition store_glyph (rasterize : Z -> option SDL_Surface)
    (m : gmap Z glyph_info) (character : Z) : gmap Z glyph_info :=
  match rasterize character with
  | Some sf =>
      <[character := mkGlyph sf (mkRect 0 0 (surface_w sf) (surface_h sf))
                             0%nat]> m
  | None => m
  end.

Definition generate_glyph_surfaces (font : bool)
    (rasterize : Z -> option SDL_Surface) (glyphs : list Z)
    (m : gmap Z glyph_info) : gmap Z glyph_info :=
  if negb font || bool_decide (glyphs = []) then m
  else foldl (store_glyph rasterize) ∅ glyphs.

(** Calls to the libraries made while building and destroying a font. *)
Inductive sdl_call :=
| CreateRGBSurface (page : nat) (w h : Z)
| BlitSurface (character : Z) (src : SDL_Rect) (page : nat) (dst : SDL_Rect)
| FreeGlyphSurface (character : Z)
| CreateTextureFromSurface (page : nat)
| FreeAtlasSurface (page : nat)
| DestroyTexture (page : nat)
| CloseFont.

(** A glyph after the pages exist: its surface pointer may have been
    released and set to null. *)
Record glyph_slot := mkSlot {
  slot_surface : option SDL_Surface;
  slot_srcrect : SDL_Rect;
  slot_texture_index : nat
}.

(** Whether the library hands out the atlas surface and the texture of a
    page (a null result is the failure). *)
Record allocator := mkAlloc {
  surface_ok : nat -> bool;
  texture_ok : nat -> bool
}.

Inductive outcome (A : Type) :=
| Built (a : A)
| OutOfRange.
Arguments Built {A} a.
Arguments OutOfRange {A}.

(** First loop of [generate_glyph_textures]: one atlas surface per page,
    of the recorded size. *)
Definition create_atlas_surfaces (al : allocator) (pages : list SDL_Rect)
  : list bool * list sdl_call :=
  (imap (fun i _ => surface_ok al i) pages,
   imap (fun i p => CreateRGBSurface i (rect_w p) (rect_h p)) pages).

(** Second loop, one glyph: the atlas surface is fetched with
    [atlas_surfaces[texture_index]], which is undefined past the end of
    the vector; the glyph is copied to its rectangle when that surface
    exists, and its own surface released if asked. *)
Definition blit_glyph (free_glyph_surfaces : bool) (atlas_surfaces : list bool)
    (e : Z * glyph_info) : outcome ((Z * glyph_slot) * list sdl_call) :=
  let '(character, glyph) := e in
  let dstrect := srcrect glyph in
  let src := mkRect 0 0 (rect_w dstrect) (rect_h dstrect) in
  match atlas_surfaces !! texture_index glyph with
  | None => OutOfRange
  | Some true =>
      if free_glyph_surfaces
      then Built ((character, mkSlot None dstrect (texture_index glyph)),
                  [BlitSurface character src (texture_index glyph) dstrect;
                   FreeGlyphSurface character])
      else Built ((character,
                   mkSlot (Some (surface glyph)) dstrect (texture_index glyph)),
                  [BlitSurface character src (texture_index glyph) dstrect])
  | Some false =>
      Built ((character,
              mkSlot (Some (surface glyph)) dstrect (texture_index glyph)), [])
  end.

Fixpoint blit_glyphs (free_glyph_surfaces : bool) (atlas_surfaces : list bool)
    (gl : list (Z * glyph_info))
  : outcome (list (Z * glyph_slot) * list sdl_call) :=
  match gl with
  | [] => Built ([], [])
  | e :: rest =>
      match blit_glyph free_glyph_surfaces atlas_surfaces e with
      | OutOfRange => OutOfRange
      | Built (slot, calls) =>
          match blit_glyphs free_glyph_surfaces atlas_surfaces rest with
          | OutOfRange => OutOfRange
          | Built (slots, calls') => Built (slot :: slots, calls ++ calls')
          end
      end
  end.

(** Third loop: a texture from every atlas surface that exists, after
    which the surface is released. *)
Definition create_textures (al : allocator) (atlas_surfaces : list bool)
    (pages : list SDL_Rect) : list (bool * SDL_Rect) * list sdl_call :=
  (imap (fun i p =>
           (match atlas_surfaces !! i with
            | Some true => texture_ok al i
            | _ => false
            end, p)) pages,
   concat (imap (fun i (ok : bool) =>
                   if ok then [CreateTextureFromSurface i; FreeAtlasSurface i]
                   else []) atlas_surfaces)).

(** The font after [generate_glyph_textures]: per glyph its slot, per
    page whether it has a texture and its recorded bounds. *)
Record atlas := mkAtlas {
  atlas_glyphs : list (Z * glyph_slot);
  atlas_textures : list (bool * SDL_Rect)
}.

Definition generate_glyph_textures (al : allocator)
    (free_glyph_surfaces : bool) (fi : bitmap_font_info)
  : outcome (atlas * list sdl_call) :=
  let '(atlas_surfaces, calls1) := create_atlas_surfaces al (textures fi) in
  match blit_glyphs free_glyph_surfaces atlas_surfaces (glyphs fi) with
  | OutOfRange => OutOfRange
  | Built (slots, calls2) =>
      let '(texs, calls3) := create_textures al atlas_surfaces (textures fi) in
      Built (mkAtlas slots texs, calls1 ++ calls2 ++ calls3)
  end.

(** The font object: the font pointer (set or null), whether the object
    owns it, and the glyphs and pages. *)
Record simple_bitmap_font := mkFont {
  sdl_font : bool;
  destroy_font : bool;
  font_atlas : atlas
}.

(** [create] on the fresh object of a constructor.  [order] lists the
    entries of the glyph map in the order the container iterates them. *)
Definition create (order : gmap Z glyph_info -> list (Z * glyph_info))
    (al : allocator) (font : bool) (rasterize : Z -> option SDL_Surface)
    (glyphs : list Z) : outcome (atlas * list sdl_call) :=
  let m := generate_glyph_surfaces font rasterize glyphs ∅ in
  let fi := generate_glyph_srcrects (mkFontInfo (order m) []) in
  generate_glyph_textures al true fi.

(** [destroy]: every texture that exists is destroyed, pages and glyphs
    are dropped, and a font the object owns is closed. *)
Definition destroy (f : simple_bitmap_font)
  : simple_bitmap_font * list sdl_call :=
  let calls :=
    concat (imap (fun i (t : bool * SDL_Rect) =>
                    if t.1 then [DestroyTexture i] else [])
                 (atlas_textures (font_atlas f))) in
  if destroy_font f && sdl_font f
  then (mkFont false (destroy_font f) (mkAtlas [] []), calls ++ [CloseFont])
  else (mkFont (sdl_font f) (destroy_font f) (mkAtlas [] []), calls).

End FontObject.

Module FontObjectSpec.
Import Font FontObject.

(** The slot of a glyph once the pages exist: its own surface is gone
    exactly when it was to be released and the surface of its page
    exists. *)
Definition slot_after (free_glyph_surfaces page_ok : bool) (g : glyph_info)
  : glyph_slot :=
  mkSlot (if free_glyph_surfaces && page_ok then None else Some (surface g))
         (srcrect g) (texture_index g).

(** All page indices of the glyphs name a recorded page. *)
Definition indices_in_range (fi : bitmap_font_info) : Prop :=
  Forall (fun e => (texture_index e.2 < length (textures fi))%nat) (glyphs fi).

(** A font of a few characters, one of which has no glyph. *)
Definition sample_rasterize (c : Z) : option SDL_Surface :=
  if c =? 32 then None else Some (mkSurface (c - 50) 20).

Definition sample_alloc : allocator := mkAlloc (fun _ => true) (fun _ => true).

(** The entries of a glyph map in ascending order of the key encoding. *)
Definition sample_order (m : gmap Z glyph_info) : list (Z * glyph_info) :=
  map_to_list m.

End FontObjectSpec.

(** ** World: the remaining operations *)

Module WorldMore.
Import World.

Local Open Scope Z_scope.

(** [std::round]: the nearest integer, halfway cases away from zero. *)
Definition round_half_away (q : Q) : Z :=
  if Qle_bool 0 q then Qfloor (q + (1 # 2)) else Qceiling (q - (1 # 2)).

(** [get_max_horizontal_tiles]: 0 without a main camera, else the
    [unsigned] quotient of the viewport width by the tile width.  A tile
    width of 0 divides by zero, which is undefined ([None]). *)
Definition get_max_horizontal_tiles (w : world) : option Z :=
  match get_main_camera w with
  | Some camera =>
      if tile_width (map w) =? 0 then None
      else Some (width camera / tile_width (map w))
  | None => Some 0
  end.

(** [get_max_vertical_tiles]: 0 without a main camera, else the viewport
    height divided by half the tile height, rounded and converted to
    [unsigned].  With a tile height of 0 the quotient is infinite or not
    a number and the conversion is undefined. *)
Definition get_max_vertical_tiles (w : world) : option Z :=
  match get_main_camera w with
  | Some camera =>
      if tile_height (map w) =? 0 then None
      else static_cast_unsigned
             (inject_Z (round_half_away
                (inject_Z (height camera) /
                 (inject_Z (tile_height (map w)) / 2))%Q))
  | None => Some 0
  end.

(** The call [add_object] makes on the object it is given. *)
Inductive object_call :=
| SetupTransform (obj : nat) (camera : option camera) (m : tile_map).

(** [add_object]: a null pointer is ignored; any other object is handed
    the main camera of the moment and the map, and appended. *)
Definition add_object (w : world) (obj : option nat)
  : world * list object_call :=
  match obj with
  | Some o =>
      (mkWorld (map w) (cameras w) (objects w ++ [Some o])
               (selected_world_tile w) (update_called w),
       [SetupTransform o (get_main_camera w) (map w)])
  | None => (w, [])
  end.

(** [remove_object]: a null pointer is ignored; [std::list::remove]
    erases every element equal to the pointer. *)
Definition remove_object (w : world) (obj : option nat) : world :=
  match obj with
  | Some o =>
      mkWorld (map w) (cameras w)
              (List.filter (fun x => negb (bool_decide (x = Some o)))
                           (objects w))
              (selected_world_tile w) (update_called w)
  | None => w
  end.

(** The operations of the world, and a sequence of them applied to a
    world; a frame that stops at a fault ends the sequence. *)
Inductive world_op :=
| Update
| Render (f : frame)
| SetSelectionOp (tile_point : SDL_Point)
| ResetSelection
| AddObject (obj : option nat)
| RemoveObject (obj : option nat).

Definition apply_op (w : world) (op : world_op) : option world :=
  match op with
  | Update => Some (update w)
  | Render f =>
      match run_render f w with
      | (s, Done _) => Some (st_world s)
      | (_, Fault _) => None
      end
  | SetSelectionOp p => Some (set_selection w p)
  | ResetSelection => Some (reset_selection w)
  | AddObject obj => Some (add_object w obj).1
  | RemoveObject obj => Some (remove_object w obj)
  end.

Fixpoint apply_ops (ops : list world_op) (w : world) : option world :=
  match ops with
  | [] => Some w
  | op :: rest =>
      match apply_op w op with
      | Some w' => apply_ops rest w'
      | None => None
      end
  end.

End WorldMore.

(** ** The calls of a frame *)

Module TraceDefs.
Import World WorldInv.

(** The rectangle [render] clips to. *)
Definition camera_viewport (c : camera) : SDL_Rect :=
  mkRect (unsigned_to_int (viewport_x c)) (unsigned_to_int (viewport_y c))
         (unsigned_to_int (width c)) (unsigned_to_int (height c)).

Definition warning (w : world) : list event :=
  if update_called w then [] else [Warn].


(** The render callbacks of the game objects, one per non-null object
    in list order. *)
Definition object_renders (objs : list (option nat)) : list event :=
  List.map ObjectRender (omap id objs).

(** Calls the layer loop may make for the tile at index [(x, y)] and
    point [p]: an image id stored on that tile, that tile drawn, that
    tile selected while the cursor is over it, and the selection image
    of the map drawn on it while the cursor is over it, between setting
    the alpha of its texture to 90 and back to 255. *)
Inductive layer_events (f : frame) (simg : option tile_image) (x y : Z)
    (p : SDL_Point) : list event -> Prop :=
| le_nil : layer_events f simg x y p []
| le_store l id rest :
    layer_events f simg x y p rest ->
    layer_events f simg x y p (SetImageId x y l id :: rest)
| le_draw img l rest :
    layer_events f simg x y p rest ->
    layer_events f simg x y p (RenderTile img p l :: rest)
| le_select rest :
    hit f p = true ->
    layer_events f simg x y p rest ->
    layer_events f simg x y p (SetSelection p :: rest)
| le_selection img rest :
    simg = Some img -> hit f p = true ->
    layer_events f simg x y p rest ->
    layer_events f simg x y p
      (SetTextureAlphaMod img 90 :: RenderSelection img p ::
       SetTextureAlphaMod img 255 :: rest).

(** The calls of the iteration for the loop variables [t]: the tile is
    fetched once, at the index the variables convert to, before the
    calls of its layers. *)
Definition tile_events (f : frame) (simg : option tile_image) (t : Q * Q)
    (evs : list event) : Prop :=
  exists x y p rest,
    tile_index_of t = Some (x, y) /\ tile_point_of t = Some p /\
    evs = GetTile x y :: rest /\ layer_events f simg x y p rest.

Definition is_selection_call (e : event) : bool :=
  match e with
  | SetTextureAlphaMod _ _ | RenderSelection _ _ => true
  | _ => false
  end.

(** The selection image is only drawn over a tile under the cursor, and
    every time with the alpha of its texture set to 90 just before and
    back to 255 just after. *)
Inductive alpha_restored (f : frame) (simg : option tile_image)
  : list event -> Prop :=
| ar_nil : alpha_restored f simg []
| ar_selection img p rest :
    simg = Some img -> hit f p = true ->
    alpha_restored f simg rest ->
    alpha_restored f simg
      (SetTextureAlphaMod img 90 :: RenderSelection img p ::
       SetTextureAlphaMod img 255 :: rest)
| ar_other e rest :
    is_selection_call e = false ->
    alpha_restored f simg rest ->
    alpha_restored f simg (e :: rest).

(** The run from [s] to [s'] adds calls described by [P] to the trace
    and keeps the selection image of the map, which is [simg]. *)
Definition emits (simg : option tile_image) (P : list event -> Prop)
    (s s' : rstate) : Prop :=
  selection_image (st_map s) = simg ->
  selection_image (st_map s') = simg /\
  exists new, st_trace s' = st_trace s ++ new /\ P new.

End TraceDefs.

Module MoreScenes.
Import World WorldMore Scenes.

Definition highlight : tile_image := mkImage 9 (mkRect 64 0 64 32).

(** The 4x4 grid with default images and a selection image. *)
Definition map4_selection : tile_map :=
  mkMap 4 4 64 32 [[7]]
        (<[(2, 2) := mkTile {[0%nat := 7]}]> (empty_grid 4 4))
        {[7 := grass]} (Some highlight).

(** A world on that map with two game objects, one of them added twice. *)
Definition world4_objects : world :=
  (add_object
     (add_object
        (add_object (update (new_world map4_selection (Some camera0)))
                    (Some 1%nat)).1
        (Some 2%nat)).1
     (Some 1%nat)).1.





End MoreScenes.

Module ObjectDefs.
Import World WorldInv WorldMore.

(** The game objects whose render callback a trace records, in the
    order of the calls. *)
Definition rendered_objects (tr : list event) : list nat :=
  omap (fun e => match e with ObjectRender o => Some o | _ => None end) tr.

(** A busy session on the 4x4 world: objects come and go between
    frames. *)
Definition session : list world_op :=
  [AddObject (Some 1%nat); AddObject None; Update;
   Render (Scenes.cursor_over (mkPoint 2 2)); AddObject (Some 2%nat);
   RemoveObject (Some 1%nat); RemoveObject None; ResetSelection;
   Render Scenes.cursor_nowhere; SetSelectionOp (mkPoint 1 1)].

(** What every operation keeps of a world built on map [m] with main
    camera [main_camera]. *)
Definition world_inv (m : tile_map) (main_camera : option camera) (w : world)
  : Prop :=
  Forall (fun o => o <> None) (objects w) /\
  cameras w = option_list main_camera /\
  map_config (map w) = map_config m /\
  (forall x y, is_Some (get_tile (map w) x y) <-> is_Some (get_tile m x y)).

End ObjectDefs.

(** ** Worlds on which a frame cannot stop *)

Module ReturnDefs.
Import World WorldInv.




End ReturnDefs.

(** ** The warning of a stale transform *)

Module WarnDefs.
Import World.

(** The run from [s] to [s'] only adds calls to the trace, none of them
    the warning. *)
Definition adds_no_warning (s s' : rstate) : Prop :=
  exists new, st_trace s' = st_trace s ++ new /\ ~ In Warn new.

Definition is_warning (e : event) : bool :=
  match e with
  | Warn => true
  | _ => false
  end.

End WarnDefs.

(** * Part II: facts and claims *)

(** ** Glyph packing *)

Module FontFacts.
Import Font FontInv.

Lemma all_disjoint_snoc (l : list glyph_info) (g : glyph_info) :
  all_disjoint l -> Forall (fun a => disjoint a g) l ->
  all_disjoint (l ++ [g]).
Proof.
  induction l as [|a l IH]; simpl; intros Hd Hg.
  - split; [constructor | exact I].
  - destruct Hd as [Ha Hl]. inversion Hg as [|? ? Hag Hlg]; subst.
    split.
    + apply Forall_app. split; [exact Ha | constructor; [exact Hag | constructor]].
    + apply IH; assumption.
Qed.

Lemma all_disjoint_lookup (l : list glyph_info) (i j : nat) (a b : glyph_info) :
  all_disjoint l -> i <> j -> l !! i = Some a -> l !! j = Some b ->
  texture_index a = texture_index b ->
  ~ rects_overlap (srcrect a) (srcrect b).
Proof.
  revert i j. induction l as [|c l IH]; intros i j Hd Hne Hi Hj Hidx.
  - discriminate.
  - destruct Hd as [Hc Hl]. destruct i as [|i], j as [|j]; simpl in *.
    + congruence.
    + injection Hi as ->.
      rewrite Forall_forall in Hc.
      apply (Hc b); [eapply list_elem_of_lookup_2; eauto | exact Hidx].
    + injection Hj as ->.
      rewrite Forall_forall in Hc.
      intros Hov. apply (Hc a); [eapply list_elem_of_lookup_2; eauto | congruence |].
      unfold rects_overlap in *. lia.
    + apply (IH i j); auto.
Qed.

Ltac case_place :=
  repeat match goal with
  | |- context [if ?a <? ?b then _ else _] => destruct (Z.ltb_spec a b)
  | |- context [if ?a <=? ?b then _ else _] => destruct (Z.leb_spec a b)
  | H : context [if ?a <? ?b then _ else _] |- _ => destruct (Z.ltb_spec a b)
  | H : context [if ?a <=? ?b then _ else _] |- _ => destruct (Z.leb_spec a b)
  end.

Lemma place_surface (s : pack_state) (g : glyph_info) :
  surface (place s g).2 = surface g /\
  rect_w (srcrect (place s g).2) = surface_w (surface g) /\
  rect_h (srcrect (place s g).2) = surface_h (surface g).
Proof. unfold place. case_place; simpl; auto. Qed.

End FontFacts.

Module FontSteps.
Import Font FontInv FontFacts.

Lemma place_placed_ok_old (s : pack_state) (g a : glyph_info) :
  0 <= surface_w (surface g) -> 0 <= surface_h (surface g) ->
  cur_index s = length (pages s) -> 0 <= row_height s ->
  placed_ok s a -> placed_ok (place s g).1 a.
Proof.
  intros Hw Hh Hidx Hrh Ha. unfold placed_ok in *.
  destruct (pages s !! texture_index a) as [p|] eqn:Hp.
  - assert (Hp' : pages (place s g).1 !! texture_index a = Some p).
    { unfold place. case_place; simpl; auto.
      all: apply lookup_app_l_Some; exact Hp. }
    rewrite Hp'. exact Ha.
  - destruct Ha as [Hi Hc]. unfold on_current in Hc.
    unfold place. case_place; simpl.
    all: try (rewrite Hi, Hidx, lookup_app_r by lia;
              rewrite Nat.sub_diag; simpl; unfold rect_inside; simpl; lia).
    all: rewrite Hp; split; [exact Hi|]; unfold on_current; simpl; lia.
Qed.

Lemma place_index (s : pack_state) (g : glyph_info) :
  cur_index s = length (pages s) ->
  cur_index (place s g).1 = length (pages (place s g).1) /\
  texture_index (place s g).2 = cur_index (place s g).1.
Proof.
  intros Hidx. unfold place. case_place; simpl.
  all: rewrite ?length_app; simpl; split; lia.
Qed.

Lemma place_placed_ok_new (s : pack_state) (g : glyph_info) :
  0 <= surface_w (surface g) -> 0 <= surface_h (surface g) ->
  cur_index s = length (pages s) ->
  0 <= cur_x s -> 0 <= cur_y s -> 0 <= row_height s ->
  placed_ok (place s g).1 (place s g).2.
Proof.
  intros Hw Hh Hidx Hx Hy Hrh. unfold placed_ok.
  destruct (place_index s g Hidx) as [Hlen Hnew].
  rewrite Hnew, Hlen, lookup_ge_None_2 by lia.
  split; [lia|].
  unfold on_current, place. case_place; simpl; lia.
Qed.

Lemma place_cursor_nonneg (s : pack_state) (g : glyph_info) :
  0 <= surface_w (surface g) -> 0 <= surface_h (surface g) ->
  0 <= cur_x s -> 0 <= cur_y s -> 0 <= row_height s ->
  0 <= cur_x (place s g).1 /\ 0 <= cur_y (place s g).1 /\
  0 <= row_height (place s g).1.
Proof. intros. unfold place. case_place; simpl; lia. Qed.

Lemma place_disjoint_old (s : pack_state) (g a : glyph_info) :
  0 <= surface_w (surface g) -> 0 <= surface_h (surface g) ->
  cur_index s = length (pages s) -> 0 <= row_height s ->
  placed_ok s a -> disjoint a (place s g).2.
Proof.
  intros Hw Hh Hidx Hrh Ha Hsame. unfold placed_ok in Ha.
  destruct (pages s !! texture_index a) as [p|] eqn:Hp.
  - apply lookup_lt_Some in Hp. exfalso. revert Hsame Hp.
    unfold place. case_place; simpl; lia.
  - destruct Ha as [Hi Hc]. unfold on_current in Hc.
    revert Hsame. unfold rects_overlap, place.
    case_place; simpl; lia.
Qed.

Lemma place_inv (s : pack_state) (g : glyph_info) (prev : list glyph_info) :
  0 <= surface_w (surface g) -> 0 <= surface_h (surface g) ->
  pack_inv s prev -> pack_inv (place s g).1 (prev ++ [(place s g).2]).
Proof.
  intros Hw Hh (Hidx & Hx & Hy & Hrh & Hok & Hdis).
  destruct (place_cursor_nonneg s g) as (Hx' & Hy' & Hrh'); auto.
  unfold pack_inv. repeat split; auto.
  - apply place_index, Hidx.
  - apply Forall_app. split.
    + eapply Forall_impl; [exact Hok|].
      intros a Ha. apply place_placed_ok_old; auto.
    + constructor; [|constructor]. apply place_placed_ok_new; auto.
  - apply all_disjoint_snoc; [exact Hdis|].
    eapply Forall_impl; [exact Hok|].
    intros a Ha. apply place_disjoint_old; auto.
Qed.

Lemma place_open_page (s : pack_state) (g : glyph_info) :
  glyph_positive g -> 0 <= cur_x s -> 0 <= cur_y s ->
  open_page_nonempty (place s g).1.
Proof.
  intros [Hw Hh] Hx Hy. unfold open_page_nonempty, place.
  case_place; simpl; lia.
Qed.

Lemma place_size_inv (s : pack_state) (g : glyph_info) :
  glyph_fits g -> size_inv s -> size_inv (place s g).1.
Proof.
  unfold glyph_fits, size_inv, max_texture_width, max_texture_height.
  intros [Hw Hh] (Hy & Hrh & Htw & Hth & Hpages).
  unfold place, max_texture_width, max_texture_height.
  case_place; simpl; repeat split; try lia.
  all: try exact Hpages.
  all: apply Forall_app; split; [exact Hpages|];
       constructor; [simpl; lia | constructor].
Qed.

Lemma place_first_page (s : pack_state) (g : glyph_info) :
  first_page_inv s -> first_page_inv (place s g).1.
Proof.
  unfold first_page_inv, max_texture_height.
  intros H. unfold place, max_texture_width, max_texture_height.
  destruct (pages s) as [|p ps] eqn:Hp.
  - case_place; simpl; lia.
  - case_place; simpl; exact H.
Qed.

End FontSteps.

Module FontLoop.
Import Font FontInv FontFacts FontSteps.

Lemma pack_loop_cons (s : pack_state) (c : Z) (g : glyph_info)
    (rest : list (Z * glyph_info)) :
  pack_loop s ((c, g) :: rest) =
    ((pack_loop (place s g).1 rest).1,
     (c, (place s g).2) :: (pack_loop (place s g).1 rest).2).
Proof.
  simpl. destruct (place s g) as [s1 g1]. simpl.
  destruct (pack_loop s1 rest) as [s2 rest']. reflexivity.
Qed.

Lemma pack_loop_keys (gl : list (Z * glyph_info)) (s : pack_state) :
  map fst (pack_loop s gl).2 = map fst gl.
Proof.
  revert s. induction gl as [|[c g] rest IH]; intros s; [reflexivity|].
  rewrite pack_loop_cons. simpl. f_equal. apply IH.
Qed.

Lemma pack_loop_lookup (gl : list (Z * glyph_info)) (s : pack_state)
    (i : nat) (c : Z) (g : glyph_info) :
  (pack_loop s gl).2 !! i = Some (c, g) ->
  exists g0, gl !! i = Some (c, g0) /\ surface g = surface g0 /\
    rect_w (srcrect g) = surface_w (surface g0) /\
    rect_h (srcrect g) = surface_h (surface g0).
Proof.
  revert s i. induction gl as [|[c0 g0] rest IH]; intros s i; [discriminate|].
  rewrite pack_loop_cons. destruct i as [|i]; simpl.
  - intros [= <- <-]. exists g0. split; [reflexivity|]. apply place_surface.
  - apply IH.
Qed.

Lemma pack_loop_inv (gl : list (Z * glyph_info)) (s : pack_state)
    (prev : list glyph_info) :
  Forall (fun e => 0 <= surface_w (surface e.2) /\
                   0 <= surface_h (surface e.2)) gl ->
  pack_inv s prev ->
  pack_inv (pack_loop s gl).1 (prev ++ map snd (pack_loop s gl).2).
Proof.
  revert s prev. induction gl as [|[c g] rest IH]; intros s prev Hgl Hinv.
  - simpl. rewrite app_nil_r. exact Hinv.
  - inversion Hgl as [|? ? [Hw Hh] Hrest]; subst. simpl in Hw, Hh.
    rewrite pack_loop_cons. simpl.
    rewrite (cons_middle _ prev), app_assoc.
    apply IH; [exact Hrest|]. apply place_inv; assumption.
Qed.

Lemma pack_loop_open_page (gl : list (Z * glyph_info)) (s : pack_state) :
  Forall (fun e => glyph_positive e.2) gl ->
  0 <= cur_x s -> 0 <= cur_y s -> 0 <= row_height s ->
  gl <> [] \/ open_page_nonempty s ->
  open_page_nonempty (pack_loop s gl).1.
Proof.
  revert s. induction gl as [|[c g] rest IH]; intros s Hgl Hx Hy Hrh Hne.
  - destruct Hne as [Hne|Hne]; [congruence | exact Hne].
  - inversion Hgl as [|? ? Hg Hrest]; subst. simpl in Hg.
    rewrite pack_loop_cons. simpl.
    destruct Hg as [Hw Hh].
    destruct (place_cursor_nonneg s g) as (Hx' & Hy' & Hrh'); try lia.
    apply IH; auto. right. apply place_open_page; [split|..]; assumption.
Qed.

Lemma pack_loop_size_inv (gl : list (Z * glyph_info)) (s : pack_state) :
  Forall (fun e => glyph_fits e.2) gl ->
  size_inv s -> size_inv (pack_loop s gl).1.
Proof.
  revert s. induction gl as [|[c g] rest IH]; intros s Hgl Hs; [exact Hs|].
  inversion Hgl as [|? ? Hg Hrest]; subst.
  rewrite pack_loop_cons. simpl. apply IH; [exact Hrest|].
  apply place_size_inv; assumption.
Qed.

Lemma pack_loop_first_page (gl : list (Z * glyph_info)) (s : pack_state) :
  first_page_inv s -> first_page_inv (pack_loop s gl).1.
Proof.
  revert s. induction gl as [|[c g] rest IH]; intros s Hs; [exact Hs|].
  rewrite pack_loop_cons. simpl. apply IH, place_first_page, Hs.
Qed.

Lemma pack_init_inv : pack_inv pack_init [].
Proof. unfold pack_inv, pack_init; simpl. repeat split; try lia; constructor. Qed.

Lemma pack_init_size_inv : size_inv pack_init.
Proof.
  unfold size_inv, pack_init, max_texture_width, max_texture_height; simpl.
  repeat split; try lia. constructor.
Qed.

Lemma pack_init_first_page : first_page_inv pack_init.
Proof. unfold first_page_inv, pack_init, max_texture_height; simpl. lia. Qed.

Lemma generate_fresh (fi : bitmap_font_info) :
  textures fi = [] -> glyphs fi <> [] ->
  generate_glyph_srcrects fi =
    mkFontInfo (pack_loop pack_init (glyphs fi)).2
               (finish (pack_loop pack_init (glyphs fi)).1).
Proof.
  intros Ht Hg. unfold generate_glyph_srcrects. rewrite Ht.
  destruct (glyphs fi) as [|e rest] eqn:E; [congruence|].
  destruct (pack_loop pack_init (e :: rest)) as [s gl']. reflexivity.
Qed.

Lemma generate_empty (fi : bitmap_font_info) :
  glyphs fi = [] -> generate_glyph_srcrects fi = fi.
Proof.
  intros Hg. unfold generate_glyph_srcrects. rewrite Hg.
  destruct (textures fi); reflexivity.
Qed.

(** A glyph that satisfies the loop invariant at the end lies inside the
    page its index names, once the open page has been recorded. *)
Lemma finish_placed (s : pack_state) (g : glyph_info) :
  cur_index s = length (pages s) -> open_page_nonempty s ->
  placed_ok s g ->
  exists page, finish s !! texture_index g = Some page /\
               rect_inside (srcrect g) page.
Proof.
  intros Hidx [Htw Hth] Hg. unfold finish.
  destruct (Z.ltb_spec 0 (texture_width s)); [|lia].
  destruct (Z.ltb_spec 0 (texture_height s)); [|lia]. simpl.
  unfold placed_ok in Hg.
  destruct (pages s !! texture_index g) as [p|] eqn:Hp.
  - exists p. split; [apply lookup_app_l_Some, Hp | exact Hg].
  - destruct Hg as [Hi Hc]. unfold on_current in Hc.
    eexists. split.
    + rewrite Hi, Hidx, lookup_app_r by lia. rewrite Nat.sub_diag. reflexivity.
    + unfold rect_inside; simpl. lia.
Qed.

End FontLoop.

Module FontClaims.
Import Font FontInv FontSpec FontFacts FontSteps FontLoop.




(** C7: when no glyph is larger than a page, no recorded page is wider or
    taller than 2048, and whenever two or more pages are produced the
    first page's recorded height is strictly below 2048. *)
Theorem generate_glyph_srcrects_pages_within_maximum (fi : bitmap_font_info) :
  textures fi = [] ->
  Forall (fun e => glyph_fits e.2) (glyphs fi) ->
  pages_within_maximum (generate_glyph_srcrects fi).
Proof.
  intros Ht Hfit.
  destruct (decide (glyphs fi = [])) as [Hnil|Hne].
  { rewrite generate_empty by assumption. unfold pages_within_maximum.
    rewrite Ht. split; [constructor | simpl; lia]. }
  rewrite generate_fresh by assumption.
  set (r := pack_loop pack_init (glyphs fi)).
  pose proof (pack_loop_size_inv (glyphs fi) pack_init Hfit pack_init_size_inv)
    as (_ & _ & Htw & Hth & Hpages).
  pose proof (pack_loop_first_page (glyphs fi) pack_init pack_init_first_page)
    as Hfirst.
  fold r in Htw, Hth, Hpages, Hfirst.
  unfold max_texture_width, max_texture_height in *.
  unfold pages_within_maximum; simpl. unfold finish. split.
  - destruct ((0 <? texture_width r.1) && (0 <? texture_height r.1));
      [|exact Hpages].
    apply Forall_app. split; [exact Hpages|].
    constructor; [simpl; lia | constructor].
  - unfold first_page_inv in Hfirst.
    destruct (pages r.1) as [|p ps] eqn:Hp.
    + destruct ((0 <? texture_width r.1) && (0 <? texture_height r.1));
        simpl; lia.
    + intros _. exists p. split; [|exact Hfirst].
      destruct ((0 <? texture_width r.1) && (0 <? texture_height r.1));
        reflexivity.
Qed.

Lemma generate_glyph_srcrects_pages_within_maximum_witness :
  pages_within_maximum (generate_glyph_srcrects sample_font) /\
  length (textures (generate_glyph_srcrects sample_font)) = 3%nat.
Proof.
  split.
  - apply (generate_glyph_srcrects_pages_within_maximum sample_font).
    + reflexivity.
    + unfold sample_font, fresh_font, glyph_fits, max_texture_width,
        max_texture_height; simpl.
      repeat constructor; simpl; lia.
  - vm_compute. reflexivity.
Defined.

(** Two glyphs too wide for one row and low enough for one page: the
    second starts a new row of the same page. *)
Example wide_glyphs_wrap_to_second_row :
  generate_glyph_srcrects (fresh_font [(65, (1200, 100)); (66, (1200, 100))]) =
  mkFontInfo [(65, mkGlyph (mkSurface 1200 100) (mkRect 0 0 1200 100) 0%nat);
              (66, mkGlyph (mkSurface 1200 100) (mkRect 0 100 1200 100) 0%nat)]
             [mkRect 0 0 1200 200].
Proof. vm_compute. reflexivity. Qed.

End FontClaims.

(** ** Monad and arithmetic *)

Module MonadFacts.
Import World WorldLogic.

Lemma bind_run {A B} (m : M A) (k : A -> M B) (s s' : rstate) (r : result B) :
  bind m k s = (s', r) ->
  (exists s1 a, m s = (s1, Done a) /\ k a s1 = (s', r)) \/
  (exists e, m s = (s', Fault e) /\ r = Fault e).
Proof.
  unfold bind. destruct (m s) as [s1 [a|e]]; intros H.
  - left. eauto.
  - right. injection H as <- <-. eauto.
Qed.

Lemma bind_done {A B} (m : M A) (k : A -> M B) (s s' : rstate) (b : B) :
  bind m k s = (s', Done b) ->
  exists s1 a, m s = (s1, Done a) /\ k a s1 = (s', Done b).
Proof.
  intros H. destruct (bind_run _ _ _ _ _ H) as [?|(e & _ & ?)];
    [assumption | discriminate].
Qed.

Lemma bind_get_world {B} (k : world -> M B) (s : rstate) :
  bind get_world k s = k (st_world s) s.
Proof. reflexivity. Qed.

Section Respects.
Context (R : rstate -> rstate -> Prop).
Hypothesis R_refl : forall s, R s s.
Hypothesis R_trans : forall a b c, R a b -> R b c -> R a c.

Lemma respects_ret {A} (a : A) : respects R (ret a).
Proof using R_refl. intros s s' r [= <- <-]. apply R_refl. Qed.

Lemma respects_throw {A} (e : fault) : respects R (@throw A e).
Proof using R_refl. intros s s' r [= <- <-]. apply R_refl. Qed.

Lemma respects_get_world : respects R get_world.
Proof using R_refl. intros s s' r [= <- <-]. apply R_refl. Qed.

Lemma respects_bind {A B} (m : M A) (k : A -> M B) :
  respects R m -> (forall a, respects R (k a)) -> respects R (bind m k).
Proof using R_trans.
  intros Hm Hk s s' r H.
  destruct (bind_run _ _ _ _ _ H) as [(s1 & a & H1 & H2)|(e & H1 & _)].
  - eapply R_trans; [eapply Hm | eapply Hk]; eassumption.
  - eapply Hm; eassumption.
Qed.

Lemma respects_for_each {A} (l : list A) (body : A -> M unit) :
  (forall a, In a l -> respects R (body a)) ->
  respects R (for_each l body).
Proof using R_refl R_trans.
  induction l as [|a l IH]; intros Hbody; simpl.
  - apply respects_ret.
  - apply respects_bind; [apply Hbody; left; reflexivity|].
    intros _. apply IH. intros b Hb. apply Hbody. right. exact Hb.
Qed.

Lemma respects_for_fold {A B} (l : list A) (acc : B) (body : A -> B -> M B) :
  (forall a b, In a l -> respects R (body a b)) ->
  respects R (for_fold l acc body).
Proof using R_refl R_trans.
  revert acc. induction l as [|a l IH]; intros acc Hbody; simpl.
  - apply respects_ret.
  - apply respects_bind; [apply Hbody; left; reflexivity|].
    intros acc'. apply IH. intros b c Hb. apply Hbody. right. exact Hb.
Qed.

End Respects.

End MonadFacts.

Module ArithFacts.
Import World.



Lemma inject_Z_sub (x y : Z) : inject_Z (x - y) = (inject_Z x - inject_Z y)%Q.
Proof.
  unfold Z.sub, Qminus. rewrite inject_Z_plus, inject_Z_opp. reflexivity.
Qed.




Lemma Qltb_ge (a b : Q) : Qltb a b = false <-> (b <= a)%Q.
Proof.
  unfold Qltb. rewrite negb_false_iff, Qle_bool_iff. reflexivity.
Qed.



(** The loop leaves through its exit test before the fuel runs out: more
    fuel gives the same iterations. *)
Lemma float_range_saturated (fuel extra : nat) (start : Q) (bound : Z) :
  (inject_Z bound <= start + inject_Z (Z.of_nat fuel))%Q ->
  float_range (fuel + extra) start bound = float_range fuel start bound.
Proof.
  revert start. induction fuel as [|fuel IH]; intros start Hle.
  - change (inject_Z (Z.of_nat 0)) with 0%Q in Hle.
    destruct extra as [|extra]; [reflexivity|]. simpl.
    assert (E : Qltb start (inject_Z bound) = false) by (apply Qltb_ge; lra).
    rewrite E. reflexivity.
  - simpl. destruct (Qltb start (inject_Z bound)); [|reflexivity].
    f_equal. apply IH.
    rewrite Nat2Z.inj_succ, <- Z.add_1_r, inject_Z_plus in Hle.
    assert (inject_Z 1 == 1)%Q by reflexivity. lra.
Qed.

Lemma loop_values_terminates (start : Q) (bound : Z) (extra : nat) :
  float_range (Z.to_nat (bound - Qfloor start) + extra) start bound =
  loop_values start bound.
Proof.
  apply float_range_saturated.
  pose proof (Qfloor_le start) as Hf.
  destruct (Z.le_gt_cases (bound - Qfloor start) 0) as [Hneg|Hpos].
  - rewrite Z2Nat.nonpos by lia. change (inject_Z (Z.of_nat 0)) with 0%Q.
    rewrite Zle_Qle, inject_Z_sub in Hneg.
    change (inject_Z 0) with 0%Q in Hneg. lra.
  - rewrite Z2Nat.id by lia. rewrite inject_Z_sub. lra.
Qed.

End ArithFacts.

Module BoundClaims.
Import World BoundSpec ArithFacts.








End BoundClaims.

(** ** Frames *)

Module StepFacts.
Import World WorldLogic WorldInv MonadFacts.

Section Step.
Context (Cxy : Z -> Z -> Prop) (Cp : SDL_Point -> Prop) (f : frame).

Lemma layer_default_config (m m' : tile_map) (l : nat) :
  map_config m' = map_config m ->
  layer_has_default_images m' l = layer_has_default_images m l.
Proof.
  unfold map_config, layer_has_default_images. intros [= _ _ _ _ -> _ _].
  reflexivity.
Qed.

Lemma default_choice_config (m m' : tile_map) (l : nat) (id : Z) :
  map_config m' = map_config m ->
  default_choice m' l id -> default_choice m l id.
Proof.
  unfold map_config, default_choice, get_image, get_random_layer_default_image.
  intros [= _ _ _ _ -> -> _]. auto.
Qed.

Lemma frame_step_refl (s : rstate) : frame_step Cxy Cp f s s.
Proof.
  constructor; auto.
  - intros x y l H [id Hid]. congruence.
  - intros x y l id H1 H2. congruence.
  - exists []. rewrite app_nil_r. split; [reflexivity | constructor].
Qed.

Lemma event_ok_later (s s' : rstate) (e : event) :
  frame_step Cxy Cp f s s' -> event_ok Cxy Cp f s' e -> event_ok Cxy Cp f s e.
Proof.
  intros Hs. destruct e; simpl; auto.
  intros (Hc & Hnone & Hdef & Hch). split; [exact Hc|]. split; [|split].
  - destruct (stored_id (st_map s) x y layer_id) as [i|] eqn:E; [|reflexivity].
    apply (fs_stored _ _ _ _ _ Hs) in E. congruence.
  - rewrite <- Hdef. symmetry. apply layer_default_config, (fs_config _ _ _ _ _ Hs).
  - eapply default_choice_config; [apply (fs_config _ _ _ _ _ Hs) | exact Hch].
Qed.

Lemma frame_step_trans (a b c : rstate) :
  frame_step Cxy Cp f a b -> frame_step Cxy Cp f b c ->
  frame_step Cxy Cp f a c.
Proof.
  intros Hab Hbc. constructor.
  - rewrite (fs_config _ _ _ _ _ Hbc). apply (fs_config _ _ _ _ _ Hab).
  - rewrite (fs_cameras _ _ _ _ _ Hbc). apply (fs_cameras _ _ _ _ _ Hab).
  - rewrite (fs_objects _ _ _ _ _ Hbc). apply (fs_objects _ _ _ _ _ Hab).
  - intros x y. rewrite (fs_tiles _ _ _ _ _ Hbc). apply (fs_tiles _ _ _ _ _ Hab).
  - intros x y l id H. apply (fs_stored _ _ _ _ _ Hbc), (fs_stored _ _ _ _ _ Hab), H.
  - intros x y l Hnone Hsome.
    destruct (stored_id (st_map b) x y l) as [id|] eqn:E.
    + apply (fs_fresh _ _ _ _ _ Hab x y l Hnone). rewrite E. eauto.
    + rewrite <- (layer_default_config _ _ l (fs_config _ _ _ _ _ Hab)).
      apply (fs_fresh _ _ _ _ _ Hbc x y l E Hsome).
  - intros x y l id Hnone Hsome.
    destruct (stored_id (st_map b) x y l) as [id'|] eqn:E.
    + pose proof (fs_stored _ _ _ _ _ Hbc x y l id' E) as E'.
      assert (id' = id) as -> by congruence.
      destruct (fs_trace _ _ _ _ _ Hbc) as (n2 & E2 & _).
      rewrite E2. apply in_or_app. left.
      apply (fs_written _ _ _ _ _ Hab x y l id Hnone E).
    + apply (fs_written _ _ _ _ _ Hbc x y l id E Hsome).
  - destruct (fs_trace _ _ _ _ _ Hab) as (n1 & E1 & F1).
    destruct (fs_trace _ _ _ _ _ Hbc) as (n2 & E2 & F2).
    exists (n1 ++ n2). split; [rewrite E2, E1, app_assoc; reflexivity|].
    apply Forall_app. split; [exact F1|].
    eapply Forall_impl; [exact F2|]. intros e. apply event_ok_later, Hab.
  - destruct (fs_selection _ _ _ _ _ Hbc) as [E|H]; [|right; exact H].
    rewrite E. apply (fs_selection _ _ _ _ _ Hab).
Qed.

End Step.
End StepFacts.

Module AtomFacts.
Import World WorldLogic WorldInv MonadFacts StepFacts.

Section Atoms.
Context (Cxy : Z -> Z -> Prop) (Cp : SDL_Point -> Prop) (f : frame).

Lemma frame_step_quiet (s s' : rstate) :
  st_world s' = st_world s -> st_trace s' = st_trace s ->
  frame_step Cxy Cp f s s'.
Proof.
  intros Hw Ht. unfold st_map, selection.
  constructor; unfold st_map, selection; rewrite ?Hw; auto.
  - intros x y l H [id Hid]. congruence.
  - intros x y l id H1 H2. congruence.
  - exists []. rewrite app_nil_r. split; [exact Ht | constructor].
Qed.

Lemma frame_step_event (s s' : rstate) (e : event) :
  st_world s' = st_world s -> st_trace s' = st_trace s ++ [e] ->
  event_ok Cxy Cp f s e ->
  frame_step Cxy Cp f s s'.
Proof.
  intros Hw Ht He.
  constructor; unfold st_map, selection; rewrite ?Hw; auto.
  - intros x y l H [id Hid]. congruence.
  - intros x y l id H1 H2. congruence.
  - exists [e]. split; [exact Ht | constructor; [exact He | constructor]].
Qed.

Lemma stored_id_update_tile (m : tile_map) (x y : Z) (l : nat) (id : Z)
    (x' y' : Z) (l' : nat) :
  stored_id (update_tile m x y (fun t => set_image_id t l id)) x' y' l' =
    if decide ((x, y) = (x', y') /\ l = l')
    then match get_tile m x y with Some _ => Some id | None => None end
    else stored_id m x' y' l'.
Proof.
  unfold stored_id, get_tile, update_tile; simpl.
  rewrite lookup_alter.
  destruct (decide ((x, y) = (x', y'))) as [E|N];
    destruct (decide (l = l')) as [El|Nl].
  - rewrite (decide_True (P := _ /\ _)) by auto. rewrite <- El.
    destruct (tiles m !! (x, y)) as [t|]; simpl; [|reflexivity].
    apply lookup_insert_eq.
  - rewrite (decide_False (P := _ /\ _)) by tauto. rewrite <- E.
    destruct (tiles m !! (x, y)) as [t|]; simpl; [|reflexivity].
    apply lookup_insert_ne. exact Nl.
  - rewrite (decide_False (P := _ /\ _)) by tauto. reflexivity.
  - rewrite (decide_False (P := _ /\ _)) by tauto. reflexivity.
Qed.

Lemma frame_step_store (s s' : rstate) (x y : Z) (l : nat) (id : Z) :
  Cxy x y ->
  is_Some (get_tile (st_map s) x y) ->
  stored_id (st_map s) x y l = None ->
  layer_has_default_images (st_map s) l = true ->
  default_choice (st_map s) l id ->
  st_world s' = with_map (st_world s)
                  (update_tile (st_map s) x y (fun t => set_image_id t l id)) ->
  st_trace s' = st_trace s ++ [SetImageId x y l id] ->
  frame_step Cxy Cp f s s'.
Proof.
  intros Hc [t Ht] Hnone Hdef Hch Hw Htr.
  constructor; unfold st_map, selection in *; rewrite ?Hw; simpl; auto.
  - intros x' y'. unfold get_tile, update_tile; simpl.
    rewrite lookup_alter. destruct (decide ((x, y) = (x', y'))) as [E|N].
    + rewrite <- E. unfold get_tile in Ht. rewrite Ht. simpl. split; eauto.
    + reflexivity.
  - intros x' y' l' id' H. rewrite stored_id_update_tile.
    destruct (decide _) as [[[= <- <-] <-]|N]; [congruence | exact H].
  - intros x' y' l' H. rewrite stored_id_update_tile.
    destruct (decide _) as [[[= <- <-] <-]|N]; [intros _; exact Hdef|].
    intros [i Hi]. congruence.
  - intros x' y' l' id' H. rewrite stored_id_update_tile.
    destruct (decide _) as [[[= <- <-] <-]|N]; [|congruence].
    unfold get_tile in *. rewrite Ht. intros [= <-].
    rewrite Htr. apply in_or_app. right. left. reflexivity.
  - exists [SetImageId x y l id]. split; [exact Htr|].
    constructor; [|constructor]. simpl. auto.
Qed.

Lemma step_emit (e : event) :
  (forall s, event_ok Cxy Cp f s e) ->
  respects (frame_step Cxy Cp f) (emit e).
Proof.
  intros He s s' r [= <- <-]. eapply frame_step_event; simpl; eauto.
Qed.

Lemma step_next_random : respects (frame_step Cxy Cp f) (next_random f).
Proof. intros s s' r [= <- <-]. apply frame_step_quiet; reflexivity. Qed.

Lemma step_select_tile (p : SDL_Point) :
  Cp p -> hit f p = true ->
  respects (frame_step Cxy Cp f) (select_tile p).
Proof.
  intros Hp Hhit s s' r [= <- <-].
  constructor; unfold st_map, selection; simpl; auto.
  - intros x y l H [id Hid]. congruence.
  - intros x y l id H1 H2. congruence.
  - exists [SetSelection p]. split; [reflexivity|].
    constructor; [simpl; auto | constructor].
Qed.

Lemma step_resolve_image (x y : Z) (l : nat) :
  Cxy x y -> respects (frame_step Cxy Cp f) (resolve_image f x y l).
Proof.
  intros Hc s s' r. unfold resolve_image. rewrite bind_get_world.
  destruct (get_tile (map (st_world s)) x y) as [t|] eqn:Ht.
  - destruct (has_image t l) eqn:Hh.
    { intros [= <- <-]. apply frame_step_refl. }
    destruct (layer_has_default_images (map (st_world s)) l) eqn:Hd;
      [|intros [= <- <-]; apply frame_step_refl].
    unfold bind at 1, next_random.
    destruct (get_image _ _) as [img|] eqn:Himg; simpl.
    + cbv [bind store_image_id get_world modify_world emit ret]; simpl.
      rewrite Ht. intros [= <- <-].
      eapply frame_step_store; simpl; eauto.
      * unfold stored_id, st_map. rewrite Ht.
        unfold has_image in Hh. apply bool_decide_eq_false in Hh.
        destruct (tile_images t !! l); [exfalso; eauto | reflexivity].
      * exists (rand f (st_draws s)), img. split; [exact Himg | reflexivity].
    + unfold bind, throw; simpl. intros [= <- <-].
      apply frame_step_quiet; reflexivity.
  - destruct (layer_has_default_images (map (st_world s)) l) eqn:Hd;
      [|intros [= <- <-]; apply frame_step_refl].
    unfold bind at 1, next_random.
    destruct (get_image _ _) as [img|]; simpl.
    + cbv [bind store_image_id get_world throw]; simpl.
      rewrite Ht. intros [= <- <-].
      apply frame_step_quiet; reflexivity.
    + unfold bind, throw; simpl. intros [= <- <-].
      apply frame_step_quiet; reflexivity.
Qed.

End Atoms.
End AtomFacts.

Module WalkFacts.
Import World WorldLogic WorldInv MonadFacts StepFacts AtomFacts.

Lemma respects_bind_defined {A B} (R : rstate -> rstate -> Prop)
    (e : fault) (o : option A) (k : A -> M B) :
  (forall s, R s s) ->
  (forall a, o = Some a -> respects R (k a)) ->
  respects R (bind (defined e o) k).
Proof.
  intros Hrefl Hk. destruct o as [a|]; simpl.
  - intros s s' r H. eapply (Hk a); [reflexivity | exact H].
  - intros s s' r [= <- <-]. apply Hrefl.
Qed.

Lemma in_visible_tiles (w : world) (camera : camera) (mh mv : Z) (tx ty : Q) :
  get_main_camera w = Some camera ->
  max_tiles (current_x camera) (width camera) (tile_width (map w))
            (map_width (map w)) = Some mh ->
  max_tiles (current_y camera) (height camera) (tile_height (map w))
            (map_height (map w)) = Some mv ->
  In tx (loop_values (current_x camera) mh) ->
  In ty (loop_values (current_y camera) mv) ->
  In (tx, ty) (visible_tiles w).
Proof.
  intros Hc Hh Hv Hx Hy. unfold visible_tiles. rewrite Hc, Hh, Hv.
  apply in_flat_map. exists ty. split; [exact Hy|].
  apply in_map_iff. exists tx. auto.
Qed.

Section Walk.
Context (Cxy : Z -> Z -> Prop) (Cp : SDL_Point -> Prop) (f : frame).

Local Abbreviation step := (frame_step Cxy Cp f).

Ltac walk :=
  repeat first
    [ apply respects_ret; apply frame_step_refl
    | apply respects_throw; apply frame_step_refl
    | apply respects_get_world; apply frame_step_refl
    | apply step_next_random
    | apply step_emit; intros ?; exact I
    | apply respects_bind; [apply frame_step_trans | | intros ?] ].

Lemma step_clear_update_called : respects step clear_update_called.
Proof.
  intros s s' r [= <- <-].
  constructor; unfold st_map, selection; simpl; auto.
  - intros x y l H [id Hid]. congruence.
  - intros x y l id H1 H2. congruence.
  - exists []. rewrite app_nil_r. split; [reflexivity | constructor].
Qed.

Lemma step_render_layer (x y : Z) (p : SDL_Point) (l : nat) (b : bool) :
  Cxy x y -> (hit f p = true -> Cp p) ->
  respects step (render_layer f x y p l b).
Proof.
  intros Hc Hp. unfold render_layer.
  apply respects_bind; [apply frame_step_trans | apply step_resolve_image, Hc|].
  intros [current_image|]; [|walk].
  apply respects_bind; [apply frame_step_trans | walk |]. intros w.
  apply respects_bind; [apply frame_step_trans | |].
  { destruct current_image as [img|]; [|walk].
    destruct (tile_has_image (map w) x y l); walk. }
  intros _.
  apply respects_bind; [apply frame_step_trans | |].
  { destruct (hit f p) eqn:Hhit; [|walk].
    apply respects_bind; [apply frame_step_trans | | intros ?; walk].
    apply step_select_tile; auto. }
  intros is_selected'.
  apply respects_bind; [apply frame_step_trans | | intros ?; walk].
  destruct l; [|walk]. destruct is_selected'; [|walk].
  destruct (selection_image (map w)); walk.
Qed.

Lemma step_render_tile (t : Q * Q) :
  (forall x y, tile_index_of t = Some (x, y) -> Cxy x y) ->
  (forall p, tile_point_of t = Some p -> hit f p = true -> Cp p) ->
  respects step (render_tile f t.1 t.2).
Proof.
  intros Hxy Hp. unfold render_tile.
  apply respects_bind_defined; [apply frame_step_refl|]. intros x Hx.
  apply respects_bind_defined; [apply frame_step_refl|]. intros y Hy.
  assert (Hc : Cxy x y).
  { apply Hxy. unfold tile_index_of. rewrite Hx, Hy. reflexivity. }
  apply respects_bind; [apply frame_step_trans | |].
  { apply step_emit. intros s. exact Hc. }
  intros _.
  apply respects_bind_defined; [apply frame_step_refl|]. intros px Hpx.
  apply respects_bind_defined; [apply frame_step_refl|]. intros py Hpy.
  apply respects_bind; [apply frame_step_trans | walk |]. intros w.
  apply respects_bind; [apply frame_step_trans | | intros ?; walk].
  apply respects_for_fold;
    [apply frame_step_refl | apply frame_step_trans |].
  intros l b _. apply step_render_layer; [exact Hc|].
  apply Hp. unfold tile_point_of. rewrite Hpx, Hpy. reflexivity.
Qed.

(** Every run of [render], finished or not, is a [frame_step]. *)
Lemma step_render (s s' : rstate) (r : result unit) :
  (forall t x y, In t (visible_tiles (st_world s)) ->
     tile_index_of t = Some (x, y) -> Cxy x y) ->
  (forall t p, In t (visible_tiles (st_world s)) ->
     tile_point_of t = Some p -> hit f p = true -> Cp p) ->
  render f s = (s', r) -> step s s'.
Proof.
  intros Hxy Hp. unfold render. rewrite bind_get_world.
  set (w := st_world s) in *.
  match goal with
  | |- ?m s = _ -> _ =>
      cut (respects step m); [intros Hr H; exact (Hr _ _ _ H)|]
  end.
  apply respects_bind; [apply frame_step_trans | |].
  { destruct (update_called w); walk. }
  intros _. destruct (get_main_camera w) as [camera|] eqn:Hcam; [|walk].
  apply respects_bind; [apply frame_step_trans | walk |]. intros _.
  apply respects_bind_defined; [apply frame_step_refl|]. intros mh Hmh.
  apply respects_bind_defined; [apply frame_step_refl|]. intros mv Hmv.
  apply respects_bind; [apply frame_step_trans | |].
  { apply respects_for_each;
      [apply frame_step_refl | apply frame_step_trans |].
    intros ty Hty. apply respects_for_each;
      [apply frame_step_refl | apply frame_step_trans |].
    intros tx Htx.
    pose proof (in_visible_tiles w camera mh mv tx ty Hcam Hmh Hmv Htx Hty) as Hin.
    apply (step_render_tile (tx, ty)).
    - intros x y. apply Hxy, Hin.
    - intros p. apply Hp, Hin. }
  intros _.
  apply respects_bind; [apply frame_step_trans | |].
  { apply respects_for_each;
      [apply frame_step_refl | apply frame_step_trans |].
    intros [o|] _; walk. }
  intros _.
  apply respects_bind; [apply frame_step_trans | walk |]. intros _.
  apply step_clear_update_called.
Qed.

End Walk.
End WalkFacts.

Module RegionFacts.
Import World WorldLogic WorldInv ArithFacts.





End RegionFacts.

Module FrameClaims.
Import World WorldLogic WorldInv ClaimDefs Scenes.
Import MonadFacts ArithFacts StepFacts AtomFacts WalkFacts RegionFacts.







End FrameClaims.

Module SelectionClaims.
Import World WorldLogic WorldInv ClaimDefs Scenes.
Import MonadFacts ArithFacts StepFacts AtomFacts WalkFacts RegionFacts FrameClaims.







End SelectionClaims.

Module DoneFacts.
Import World WorldLogic WorldInv SelectDefs.
Import MonadFacts StepFacts AtomFacts WalkFacts.









End DoneFacts.

Module LoopFacts.
Import World WorldLogic WorldInv SelectDefs.
Import MonadFacts StepFacts AtomFacts WalkFacts DoneFacts.

Lemma bind_ret {A B} (a : A) (k : A -> M B) (s : rstate) :
  bind (ret a) k s = k a s.
Proof. reflexivity. Qed.

Lemma bind_emit {B} (e : event) (k : unit -> M B) (s : rstate) :
  bind (emit e) k s =
    k tt (mkState (st_world s) (st_trace s ++ [e]) (st_draws s)).
Proof. reflexivity. Qed.





End LoopFacts.

Module RenderFacts.
Import World WorldLogic WorldInv SelectDefs.
Import MonadFacts StepFacts AtomFacts WalkFacts DoneFacts LoopFacts.

Lemma for_each_app {A} (l1 l2 : list A) (body : A -> M unit) (s : rstate) :
  for_each (l1 ++ l2) body s =
    bind (for_each l1 body) (fun _ => for_each l2 body) s.
Proof.
  revert s. induction l1 as [|a l1 IH]; intros s; [reflexivity|].
  simpl. unfold bind.
  destruct (body a s) as [s1 [u|e]]; [|reflexivity].
  rewrite IH. reflexivity.
Qed.

Lemma for_each_map {A B} (g : A -> B) (l : list A) (body : B -> M unit)
    (s : rstate) :
  for_each (List.map g l) body s = for_each l (fun a => body (g a)) s.
Proof.
  revert s. induction l as [|a l IH]; intros s; [reflexivity|].
  simpl. unfold bind. destruct (body (g a) s) as [s1 [u|e]]; [|reflexivity].
  apply IH.
Qed.

(** The two nested tile loops visit the tiles of the flattened region in
    order. *)
Lemma for_each_nested (xs ys : list Q) (body : Q -> Q -> M unit) (s : rstate) :
  for_each ys (fun ty => for_each xs (fun tx => body tx ty)) s =
  for_each (flat_map (fun ty => List.map (fun tx => (tx, ty)) xs) ys)
           (fun t => body t.1 t.2) s.
Proof.
  revert s. induction ys as [|ty ys IH]; intros s; [reflexivity|].
  simpl. rewrite for_each_app. unfold bind.
  rewrite for_each_map. simpl.
  destruct (for_each xs (fun tx => body tx ty) s) as [s1 [u|e]];
    [|reflexivity].
  apply IH.
Qed.

Lemma objects_loop_world (objs : list (option nat)) :
  respects (fun s s' => st_world s' = st_world s)
    (for_each objs (fun obj =>
       match obj with
       | Some o => emit (ObjectRender o)
       | None => ret tt
       end)).
Proof.
  apply respects_for_each; [reflexivity | congruence |].
  intros [o|] _ s s' r [= <- <-]; reflexivity.
Qed.

(** The shape of a run of [render] that returns. *)
Lemma render_done (f : frame) (s s' : rstate) :
  render f s = (s', Done tt) ->
  match get_main_camera (st_world s) with
  | None => st_world s' = st_world s
  | Some _ =>
      exists s1 s2,
        st_world s1 = st_world s /\
        for_each (visible_tiles (st_world s))
                 (fun t => render_tile f t.1 t.2) s1 = (s2, Done tt) /\
        st_map s' = st_map s2 /\ selection s' = selection s2 /\
        update_called (st_world s') = false
  end.
Proof.
  unfold render. rewrite bind_get_world. intros H.
  destruct (bind_done _ _ _ _ _ H) as (s0 & [] & Hwarn & Hrest). clear H.
  assert (Hw0 : st_world s0 = st_world s).
  { destruct (update_called (st_world s)); injection Hwarn as <-; reflexivity. }
  unfold visible_tiles.
  destruct (get_main_camera (st_world s)) as [camera|] eqn:Hcam.
  - rewrite bind_emit in Hrest.
    destruct (max_tiles (current_x camera) _ _ _) as [mh|]; [|discriminate].
    destruct (max_tiles (current_y camera) _ _ _) as [mv|]; [|discriminate].
    simpl in Hrest. rewrite !bind_ret in Hrest.
    destruct (bind_done _ _ _ _ _ Hrest) as (s2 & [] & Htiles & Hrest2).
    clear Hrest. rewrite for_each_nested in Htiles.
    destruct (bind_done _ _ _ _ _ Hrest2) as (s3 & [] & Hobj & Hrest3).
    clear Hrest2. apply objects_loop_world in Hobj.
    rewrite bind_emit in Hrest3. injection Hrest3 as <-.
    eexists _, s2. split; [|split; [exact Htiles|]].
    + simpl. exact Hw0.
    + unfold st_map, selection. simpl. rewrite Hobj. auto.
  - injection Hrest as <-. exact Hw0.
Qed.

End RenderFacts.

Module RenderClaims.
Import World WorldLogic WorldInv SelectDefs ClaimDefs Scenes.
Import MonadFacts StepFacts AtomFacts WalkFacts DoneFacts LoopFacts.
Import RenderFacts RegionFacts FrameClaims SelectionClaims.








(** C9, as stated, fails: without an enabled camera [render] returns at
    once and [update_called] keeps the value [update] gave it. *)
Lemma render_without_camera_keeps_update_called :
  get_main_camera world4_no_camera = None /\
  update_called world4_no_camera = true /\
  (run_render cursor_nowhere world4_no_camera).2 = Done tt /\
  update_called (st_world (run_render cursor_nowhere world4_no_camera).1) = true.
Proof. repeat split; vm_compute; reflexivity. Qed.

(** C9 (amended): when [render] returns and there is an enabled main
    camera, [update_called] is false; when there is none, [render] leaves
    the world, the flag included, as it was. *)
Theorem render_clears_update_called (f : frame) (w : world) (s' : rstate) :
  run_render f w = (s', Done tt) ->
  match get_main_camera w with
  | Some _ => update_called (st_world s') = false
  | None => st_world s' = w
  end.
Proof.
  intros Hrun. unfold run_render in Hrun. apply render_done in Hrun.
  simpl in Hrun. destruct (get_main_camera w); [|exact Hrun].
  destruct Hrun as (s0 & s2 & _ & _ & _ & _ & Hflag). exact Hflag.
Qed.

Lemma render_clears_update_called_witness :
  update_called world4 = true /\
  update_called (st_world (run_render cursor_nowhere world4).1) = false.
Proof.
  split; [reflexivity|].
  apply (render_clears_update_called cursor_nowhere world4
           (run_render cursor_nowhere world4).1).
  vm_compute. reflexivity.
Defined.

(** C8 fails on the code: in the branch of the empty tile [render] calls
    [set_image_id] through the tile pointer and [get_image_id] through
    the image pointer without testing either.  With a default pool on
    the layer, a missing tile object or a pool entry without a registered
    image stops the frame at a null dereference. *)
Theorem render_dereferences_null :
  (run_render cursor_nowhere
     (update (new_world map_missing_tile (Some camera0)))).2
    = Fault NullDereference /\
  (run_render cursor_nowhere
     (update (new_world map_unregistered_default (Some camera0)))).2
    = Fault NullDereference.
Proof. split; vm_compute; reflexivity. Qed.

(** The 4x4 scene with the cursor off the map: one tile is drawn, the one
    with the explicit image, and the selection stays unset. *)
Example world4_draws_one_tile :
  List.filter is_draw (st_trace (run_render cursor_nowhere world4).1) =
    [RenderTile grass (mkPoint 2 2) 0%nat] /\
  has_selection (st_world (run_render cursor_nowhere world4).1) = false.
Proof. split; vm_compute; reflexivity. Qed.

End RenderClaims.

Module SelectionAccessors.
Import World Scenes.

(** C3, as stated, fails: with only the first component at the sentinel
    value [has_selection] is false although the selection is not the
    sentinel pair. *)
Lemma has_selection_false_off_sentinel :
  has_selection half_sentinel_world = false /\
  get_selection half_sentinel_world <> sentinel.
Proof. split; [reflexivity | discriminate]. Qed.

(** C3 (amended): [has_selection] is false exactly when at least one
    component of the selection has the sentinel value, in particular for
    the sentinel pair; [reset_selection] stores the sentinel pair, after
    which [has_selection] is false. *)
Theorem has_selection_spec (w : world) :
  (has_selection w = false <->
   point_x (get_selection w) = int_max \/ point_y (get_selection w) = int_max) /\
  (get_selection w = sentinel -> has_selection w = false) /\
  get_selection (reset_selection w) = sentinel /\
  has_selection (reset_selection w) = false.
Proof.
  unfold has_selection, get_selection, reset_selection, sentinel.
  destruct (selected_world_tile w) as [sx sy]; simpl.
  repeat split.
  - intros H. apply andb_false_iff in H as [H|H];
      apply negb_false_iff, Z.eqb_eq in H; auto.
  - intros [->| ->]; rewrite ?Z.eqb_refl, ?andb_false_r; reflexivity.
  - intros [= -> ->]. reflexivity.
Qed.

End SelectionAccessors.

(** * Part III: the rest of the two units *)

Module ListFacts.

Lemma fmap_as_map {A B} (f : A -> B) (l : list A) : f <$> l = List.map f l.
Proof. induction l as [|x l IH]; simpl; [|rewrite <- IH]; reflexivity. Qed.

End ListFacts.

(** ** More of the glyph atlas builder *)

Module FontMoreFacts.
Import Font FontInv FontSpec FontMore FontFacts FontSteps FontLoop.

Lemma place_reads_surface (s : pack_state) (g g' : glyph_info) :
  surface g = surface g' -> place s g = place s g'.
Proof. intros H. unfold place. rewrite H. reflexivity. Qed.

Lemma pack_loop_repack (gl : list (Z * glyph_info)) (s s0 : pack_state) :
  pack_loop s (pack_loop s0 gl).2 = pack_loop s gl.
Proof.
  revert s s0. induction gl as [|[c g] rest IH]; intros s s0; [reflexivity|].
  rewrite (pack_loop_cons s0). simpl.
  rewrite (place_reads_surface s (place s0 g).2 g)
    by apply place_surface.
  destruct (place s g) as [s1 g1].
  rewrite IH. reflexivity.
Qed.

Lemma generate_has_pages (fi : bitmap_font_info) :
  textures fi <> [] -> generate_glyph_srcrects fi = fi.
Proof.
  intros H. unfold generate_glyph_srcrects.
  destruct (textures fi); [congruence | reflexivity].
Qed.

(** Packing is idempotent: a second run of the routine changes nothing,
    whether the first one recorded pages (the guard returns at once) or
    not (the same layout is computed again). *)
Theorem generate_glyph_srcrects_idempotent (fi : bitmap_font_info) :
  generate_glyph_srcrects (generate_glyph_srcrects fi) =
  generate_glyph_srcrects fi.
Proof.
  destruct (decide (textures fi = [])) as [Ht|Ht];
    [|rewrite (generate_has_pages fi Ht); apply generate_has_pages, Ht].
  destruct (decide (glyphs fi = [])) as [Hg|Hg];
    [rewrite (generate_empty fi Hg); apply generate_empty, Hg|].
  rewrite (generate_fresh fi Ht Hg).
  set (r := pack_loop pack_init (glyphs fi)).
  destruct (decide (finish r.1 = [])) as [Hf|Hf];
    [|apply generate_has_pages; exact Hf].
  destruct (decide (r.2 = [])) as [Hr|Hr];
    [apply generate_empty; exact Hr|].
  rewrite generate_fresh by assumption. simpl.
  unfold r at 1 2. rewrite pack_loop_repack. reflexivity.
Qed.

Lemma pack_loop_single_row (gl : list (Z * glyph_info)) (x rh : Z) :
  Forall (fun e => 0 <= surface_w (surface e.2) /\
                   surface_h (surface e.2) < max_texture_height) gl ->
  0 <= x -> 0 <= rh -> x + total_width gl < max_texture_width ->
  pack_loop (mkPack x 0 rh x rh 0%nat []) gl =
    (mkPack (x + total_width gl) 0 (Z.max rh (max_height gl))
            (x + total_width gl) (Z.max rh (max_height gl)) 0%nat [],
     row_layout x gl).
Proof.
  revert x rh. induction gl as [|[c g] rest IH]; intros x rh Hgl Hx Hrh Hfit.
  - simpl. rewrite Z.add_0_r, Z.max_l by lia. reflexivity.
  - inversion Hgl as [|? ? [Hw Hh] Hrest]; subst. simpl in Hw, Hh.
    simpl total_width in *. simpl max_height.
    assert (Htw : 0 <= total_width rest).
    { clear - Hrest. induction Hrest as [|e l [He _] _ IHl]; simpl; lia. }
    rewrite pack_loop_cons.
    assert (Hplace : place (mkPack x 0 rh x rh 0%nat []) g =
      (mkPack (x + surface_w (surface g)) 0 (Z.max rh (surface_h (surface g)))
              (x + surface_w (surface g)) (Z.max rh (surface_h (surface g)))
              0%nat [],
       mkGlyph (surface g)
               (mkRect x 0 (surface_w (surface g)) (surface_h (surface g)))
               0%nat)).
    { unfold place, max_texture_width, max_texture_height in *. simpl.
      case_place; simpl; try lia; f_equal; f_equal; lia. }
    rewrite Hplace. simpl.
    rewrite IH by (auto; lia). simpl.
    rewrite Z.add_assoc, <- Z.max_assoc. reflexivity.
Qed.

(** Glyphs that fit side by side in one row (total width below 2048, each
    lower than 2048) are laid out left to right without gaps on the top
    row of a single page, whose recorded bounds are the total width and
    the tallest glyph. *)
Theorem generate_glyph_srcrects_single_row (fi : bitmap_font_info) :
  textures fi = [] ->
  Forall (fun e => 0 <= surface_w (surface e.2) /\
                   surface_h (surface e.2) < max_texture_height) (glyphs fi) ->
  total_width (glyphs fi) < max_texture_width ->
  generate_glyph_srcrects fi =
    mkFontInfo (row_layout 0 (glyphs fi))
      (if (0 <? total_width (glyphs fi)) && (0 <? max_height (glyphs fi))
       then [mkRect 0 0 (total_width (glyphs fi)) (max_height (glyphs fi))]
       else []).
Proof.
  intros Ht Hgl Hfit.
  destruct (decide (glyphs fi = [])) as [Hg|Hg].
  { rewrite generate_empty by exact Hg. destruct fi as [gl tx].
    simpl in *. subst. reflexivity. }
  rewrite generate_fresh by assumption. unfold pack_init.
  rewrite (pack_loop_single_row (glyphs fi) 0 0) by (auto; lia).
  simpl. unfold finish. simpl.
  assert (Hmh : 0 <= max_height (glyphs fi)).
  { clear. induction (glyphs fi) as [|e l IHl]; simpl; lia. }
  rewrite Z.max_r by exact Hmh. reflexivity.
Qed.

Lemma generate_glyph_srcrects_single_row_witness :
  generate_glyph_srcrects sample_row =
    mkFontInfo (row_layout 0 (glyphs sample_row)) [mkRect 0 0 31 30].
Proof.
  apply (generate_glyph_srcrects_single_row sample_row).
  - reflexivity.
  - unfold sample_row, fresh_font, max_texture_height; simpl.
    repeat constructor; simpl; lia.
  - vm_compute. reflexivity.
Defined.

Lemma pack_loop_index_order (gl : list (Z * glyph_info)) (s : pack_state) :
  (cur_index s <= cur_index (pack_loop s gl).1)%nat /\
  (cur_index (pack_loop s gl).1 <= cur_index s + length gl)%nat /\
  (length (pages (pack_loop s gl).1) + cur_index s =
   length (pages s) + cur_index (pack_loop s gl).1)%nat /\
  (forall i c g, (pack_loop s gl).2 !! i = Some (c, g) ->
     (cur_index s <= texture_index g <= cur_index (pack_loop s gl).1)%nat) /\
  (forall i j ci gi cj gj, (i <= j)%nat ->
     (pack_loop s gl).2 !! i = Some (ci, gi) ->
     (pack_loop s gl).2 !! j = Some (cj, gj) ->
     (texture_index gi <= texture_index gj)%nat).
Proof.
  revert s. induction gl as [|[c g] rest IH]; intros s.
  - simpl. repeat split; try lia; intros; discriminate.
  - rewrite pack_loop_cons. simpl.
    destruct (IH (place s g).1) as (H1 & H2 & H3 & H4 & H5).
    assert (Hp : (cur_index s <= cur_index (place s g).1 <= S (cur_index s))%nat /\
                 texture_index (place s g).2 = cur_index (place s g).1 /\
                 (length (pages (place s g).1) + cur_index s =
                  length (pages s) + cur_index (place s g).1)%nat).
    { unfold place. case_place; simpl; rewrite ?length_app; simpl; lia. }
    destruct Hp as (Hp1 & Hp2 & Hp3).
    split; [lia|]. split; [lia|]. split; [lia|]. split.
    + intros [|i] c' g'; simpl.
      * intros [= <- <-]. lia.
      * intros Hi. apply H4 in Hi. lia.
    + intros [|i] [|j] ci gi cj gj Hij; simpl; try lia.
      * intros [= <- <-] [= <- <-]. lia.
      * intros [= <- <-] Hj. apply H4 in Hj. lia.
      * apply H5. lia.
Qed.

(** Pages are filled in iteration order: a later glyph never lands on an
    earlier page than a glyph before it, and the routine records at most
    one page more than there are glyphs. *)
Theorem generate_glyph_srcrects_page_order (fi : bitmap_font_info) :
  textures fi = [] ->
  (forall i j ci gi cj gj, (i <= j)%nat ->
     glyphs (generate_glyph_srcrects fi) !! i = Some (ci, gi) ->
     glyphs (generate_glyph_srcrects fi) !! j = Some (cj, gj) ->
     (texture_index gi <= texture_index gj)%nat) /\
  (forall i c g, glyphs (generate_glyph_srcrects fi) !! i = Some (c, g) ->
     (texture_index g <= length (textures (generate_glyph_srcrects fi)))%nat) /\
  (length (textures (generate_glyph_srcrects fi)) <= length (glyphs fi) + 1)%nat.
Proof.
  intros Ht.
  destruct (decide (glyphs fi = [])) as [Hg|Hg].
  { rewrite generate_empty by exact Hg. rewrite Hg, Ht. simpl.
    repeat split; try lia; intros; discriminate. }
  rewrite generate_fresh by assumption. simpl.
  destruct (pack_loop_index_order (glyphs fi) pack_init)
    as (H1 & H2 & H3 & H4 & H5).
  set (r := pack_loop pack_init (glyphs fi)) in *. simpl in *.
  assert (Hlen : (length (pages r.1) <= length (finish r.1) <=
                  S (length (pages r.1)))%nat).
  { unfold finish. destruct (_ && _); rewrite ?length_app; simpl; lia. }
  split; [exact H5|]. split.
  - intros i c g Hi. apply H4 in Hi. lia.
  - lia.
Qed.

Lemma generate_glyph_srcrects_page_order_witness :
  (length (textures (generate_glyph_srcrects sample_font)) <=
   length (glyphs sample_font) + 1)%nat.
Proof.
  apply (generate_glyph_srcrects_page_order sample_font). reflexivity.
Defined.

End FontMoreFacts.

(** ** The font object *)

Module FontObjectFacts.
Import Font FontInv FontSpec FontMore FontObject FontObjectSpec.
Import FontFacts FontSteps FontLoop FontMoreFacts.




Lemma foldl_store_glyph (rasterize : Z -> option SDL_Surface)
    (glyphs : list Z) (m : gmap Z glyph_info) (c : Z) :
  foldl (store_glyph rasterize) m glyphs !! c =
    match rasterize c with
    | Some sf =>
        if bool_decide (c ∈ glyphs)
        then Some (mkGlyph sf (mkRect 0 0 (surface_w sf) (surface_h sf)) 0%nat)
        else m !! c
    | None => m !! c
    end.
Proof.
  revert m. induction glyphs as [|g rest IH]; intros m; simpl.
  - destruct (rasterize c); reflexivity.
  - rewrite IH. unfold store_glyph.
    destruct (rasterize c) as [sf|] eqn:Hc.
    + destruct (bool_decide (c ∈ rest)) eqn:Hrest.
      * apply bool_decide_eq_true in Hrest.
        rewrite bool_decide_eq_true_2 by (right; exact Hrest). reflexivity.
      * apply bool_decide_eq_false in Hrest.
        destruct (decide (c = g)) as [->|Hne].
        -- rewrite bool_decide_eq_true_2 by left.
           rewrite Hc, lookup_insert_eq. reflexivity.
        -- rewrite bool_decide_eq_false_2
             by (intros H; apply elem_of_cons in H as [?|?]; tauto).
           destruct (rasterize g); [|reflexivity].
           apply lookup_insert_ne. congruence.
    + destruct (rasterize g) as [sf|] eqn:Hg; [|reflexivity].
      apply lookup_insert_ne. congruence.
Qed.

(** [generate_glyph_surfaces] leaves the glyph map alone without a font
    or without characters.  Otherwise it rebuilds the map from nothing:
    the result has an entry exactly for the requested characters that
    have a surface, each with the whole surface as rectangle and page 0,
    whatever the map held before and however often a character is
    listed. *)
Theorem generate_glyph_surfaces_entries (font : bool)
    (rasterize : Z -> option SDL_Surface) (glyphs : list Z)
    (m : gmap Z glyph_info) :
  (font = false \/ glyphs = [] ->
   generate_glyph_surfaces font rasterize glyphs m = m) /\
  (font = true -> glyphs <> [] ->
   forall c,
     generate_glyph_surfaces font rasterize glyphs m !! c =
       match rasterize c with
       | Some sf =>
           if bool_decide (c ∈ glyphs)
           then Some (mkGlyph sf (mkRect 0 0 (surface_w sf) (surface_h sf))
                              0%nat)
           else None
       | None => None
       end).
Proof.
  unfold generate_glyph_surfaces. split.
  - intros [-> | ->]; [reflexivity|].
    rewrite bool_decide_eq_true_2 by reflexivity.
    rewrite orb_true_r. reflexivity.
  - intros -> Hne c. rewrite bool_decide_eq_false_2 by exact Hne. simpl.
    rewrite foldl_store_glyph, lookup_empty.
    destruct (rasterize c); [destruct (bool_decide _)|]; reflexivity.
Qed.

Lemma blit_glyphs_in_range (free : bool) (surfaces : list bool)
    (gl : list (Z * glyph_info)) :
  Forall (fun e => (texture_index e.2 < length surfaces)%nat) gl ->
  exists calls,
    blit_glyphs free surfaces gl =
      Built (List.map (fun e =>
               (e.1, slot_after free
                       (default false (surfaces !! texture_index e.2)) e.2)) gl,
             calls) /\
    forall character src page dst,
      In (BlitSurface character src page dst) calls ->
      surfaces !! page = Some true /\
      exists g, In (character, g) gl /\ texture_index g = page /\
                dst = srcrect g /\
                src = mkRect 0 0 (rect_w dst) (rect_h dst).
Proof.
  induction gl as [|[c g] rest IH]; intros Hgl.
  - exists []. split; [reflexivity | intros ? ? ? ? []].
  - inversion Hgl as [|? ? Hg Hrest]; subst. simpl in Hg.
    destruct (IH Hrest) as (calls & Heq & Hcalls). clear IH.
    apply lookup_lt_is_Some_2 in Hg as [ok Hok].
    simpl. rewrite Hok, Heq. unfold slot_after. simpl.
    destruct ok, free; simpl; eexists; (split; [reflexivity|]).
    all: intros character src page dst Hin.
    all: repeat (destruct Hin as [Hin|Hin]; [try discriminate|]).
    all: try (injection Hin as <- <- <- <-;
              split; [exact Hok|]; exists g; auto).
    all: try (destruct (Hcalls _ _ _ _ Hin) as (H1 & g' & H2 & H3);
              split; [exact H1|]; exists g'; split; [right; exact H2 | exact H3]).
Qed.

Lemma blit_glyphs_out_of_range (free : bool) (surfaces : list bool)
    (gl : list (Z * glyph_info)) :
  Exists (fun e => (length surfaces <= texture_index e.2)%nat) gl ->
  blit_glyphs free surfaces gl = OutOfRange.
Proof.
  induction gl as [|[c g] rest IH]; intros Hgl; [inversion Hgl|].
  simpl. destruct (surfaces !! texture_index g) as [ok|] eqn:Hok;
    [|reflexivity].
  inversion Hgl as [? ? Hg|? ? Hrest]; subst.
  - simpl in Hg. apply lookup_lt_Some in Hok. lia.
  - rewrite (IH Hrest). destruct ok, free; reflexivity.
Qed.

Lemma create_atlas_surfaces_lookup (al : allocator) (pages : list SDL_Rect)
    (i : nat) :
  (create_atlas_surfaces al pages).1 !! i =
    (fun _ => surface_ok al i) <$> pages !! i.
Proof. unfold create_atlas_surfaces. simpl. apply list_lookup_imap. Qed.

Lemma generate_glyph_textures_faults (al : allocator) (free : bool)
    (fi : bitmap_font_info) :
  ~ indices_in_range fi ->
  generate_glyph_textures al free fi = OutOfRange.
Proof.
  unfold indices_in_range, generate_glyph_textures.
  destruct (create_atlas_surfaces al (textures fi)) as [surfaces calls1] eqn:Hs.
  assert (Hlen : length surfaces = length (textures fi)).
  { unfold create_atlas_surfaces in Hs. injection Hs as <- _.
    apply length_imap. }
  intros Hnot. rewrite blit_glyphs_out_of_range; [reflexivity|].
  apply not_Forall_Exists in Hnot; [|intros e; apply _].
  eapply Exists_impl; [exact Hnot|]. intros e He. simpl in He. lia.
Qed.

Lemma generate_glyph_textures_built (al : allocator) (free : bool)
    (fi : bitmap_font_info) :
  indices_in_range fi ->
  exists calls,
    generate_glyph_textures al free fi =
      Built (mkAtlas
               (List.map (fun e =>
                  (e.1, slot_after free (surface_ok al (texture_index e.2))
                                   e.2)) (glyphs fi))
               (imap (fun i p => (surface_ok al i && texture_ok al i, p))
                     (textures fi)),
             calls) /\
    forall character src page dst,
      In (BlitSurface character src page dst) calls ->
      surface_ok al page = true /\
      exists g, In (character, g) (glyphs fi) /\ texture_index g = page /\
                dst = srcrect g /\
                src = mkRect 0 0 (rect_w dst) (rect_h dst).
Proof.
  unfold indices_in_range, generate_glyph_textures.
  destruct (create_atlas_surfaces al (textures fi)) as [surfaces calls1] eqn:Hs.
  assert (Hlen : length surfaces = length (textures fi)).
  { unfold create_atlas_surfaces in Hs. injection Hs as <- _.
    apply length_imap. }
  assert (Hlook : forall i, surfaces !! i =
            (fun _ => surface_ok al i) <$> textures fi !! i).
  { intros i. rewrite <- (create_atlas_surfaces_lookup al (textures fi) i).
    rewrite Hs. reflexivity. }
  intros Hin.
  destruct (blit_glyphs_in_range free surfaces (glyphs fi))
    as (calls2 & Heq & Hcalls).
  { rewrite Hlen. exact Hin. }
  rewrite Heq.
  destruct (create_textures al surfaces (textures fi)) as [texs calls3] eqn:Ht.
  assert (Hslots :
    List.map (fun e =>
      (e.1, slot_after free
              (default false (surfaces !! texture_index e.2)) e.2))
      (glyphs fi) =
    List.map (fun e =>
      (e.1, slot_after free (surface_ok al (texture_index e.2)) e.2))
      (glyphs fi)).
  { apply List.map_ext_in. intros e He.
    rewrite List.Forall_forall in Hin. apply Hin in He.
    f_equal. f_equal. rewrite Hlook.
    apply lookup_lt_is_Some_2 in He as [p ->]. reflexivity. }
  assert (Htexs : texs =
    imap (fun i p => (surface_ok al i && texture_ok al i, p)) (textures fi)).
  { unfold create_textures in Ht. injection Ht as <- _.
    apply imap_ext. intros i p Hp. simpl.
    rewrite Hlook, Hp. simpl.
    destruct (surface_ok al i); reflexivity. }
  rewrite Hslots, Htexs. eexists. split; [reflexivity|].
  { intros character src page dst Hc.
    apply in_app_or in Hc as [Hc|Hc].
    { exfalso. unfold create_atlas_surfaces in Hs. injection Hs as _ <-.
      apply list_elem_of_In, elem_of_lookup_imap in Hc as (i & p & Hc & _).
      discriminate. }
    apply in_app_or in Hc as [Hc|Hc].
    * destruct (Hcalls _ _ _ _ Hc) as (Hok & Hg). split; [|exact Hg].
      rewrite Hlook in Hok.
      destruct (textures fi !! page); simpl in Hok; congruence.
    * exfalso. unfold create_textures in Ht. injection Ht as _ <-.
      apply in_concat in Hc as (l & Hl & Hc).
      apply list_elem_of_In, elem_of_lookup_imap in Hl as (i & ok & -> & _).
      destruct ok; simpl in Hc; [|tauto].
      destruct Hc as [Hc|[Hc|[]]]; discriminate. }
Qed.

(** [generate_glyph_textures] stays inside its vector of atlas surfaces
    exactly when every glyph's page index names a recorded page. It then
    keeps every glyph's character, source rectangle and page index and
    every page's bounds; a glyph surface is released exactly when it was
    asked for and the surface of the glyph's page could be created, and a
    page has a texture exactly when both its surface and its texture
    could be created.  Every copy goes to the glyph's source rectangle on
    a page whose surface exists. *)
Theorem generate_glyph_textures_effect (al : allocator) (free : bool)
    (fi : bitmap_font_info) :
  (~ indices_in_range fi ->
   generate_glyph_textures al free fi = OutOfRange) /\
  (indices_in_range fi ->
   exists calls,
     generate_glyph_textures al free fi =
       Built (mkAtlas
                (List.map (fun e =>
                   (e.1, slot_after free (surface_ok al (texture_index e.2))
                                    e.2)) (glyphs fi))
                (imap (fun i p => (surface_ok al i && texture_ok al i, p))
                      (textures fi)),
              calls) /\
     forall character src page dst,
       In (BlitSurface character src page dst) calls ->
       surface_ok al page = true /\
       exists g, In (character, g) (glyphs fi) /\ texture_index g = page /\
                 dst = srcrect g /\
                 src = mkRect 0 0 (rect_w dst) (rect_h dst)).
Proof.
  split; [apply generate_glyph_textures_faults |
          apply generate_glyph_textures_built].
Qed.

Lemma generate_glyph_textures_effect_witness :
  exists calls,
    generate_glyph_textures sample_alloc true
        (generate_glyph_srcrects sample_font) =
      Built (mkAtlas
               (List.map (fun e =>
                  (e.1, slot_after true
                          (surface_ok sample_alloc (texture_index e.2)) e.2))
                  (glyphs (generate_glyph_srcrects sample_font)))
               (imap (fun i p =>
                        (surface_ok sample_alloc i && texture_ok sample_alloc i,
                         p))
                     (textures (generate_glyph_srcrects sample_font))),
             calls) /\
    forall character src page dst,
      In (BlitSurface character src page dst) calls ->
      surface_ok sample_alloc page = true /\
      exists g, In (character, g) (glyphs (generate_glyph_srcrects sample_font)) /\
                texture_index g = page /\
                dst = srcrect g /\
                src = mkRect 0 0 (rect_w dst) (rect_h dst).
Proof.
  apply (generate_glyph_textures_effect sample_alloc true
           (generate_glyph_srcrects sample_font)).
  unfold indices_in_range. vm_compute. repeat constructor.
Defined.

End FontObjectFacts.

(** ** [create] *)

Module FontCreateFacts.
Import Font FontInv FontSpec FontMore FontObject FontObjectSpec.
Import ListFacts FontFacts FontSteps FontLoop FontMoreFacts FontObjectFacts.

Lemma packing_positive (fi : bitmap_font_info) :
  textures fi = [] ->
  Forall (fun e => glyph_positive e.2) (glyphs fi) ->
  packing_sound fi (generate_glyph_srcrects fi).
Proof.
  intros Ht Hpos.
  destruct (decide (glyphs fi = [])) as [Hnil|Hne].
  { rewrite generate_empty by assumption. unfold packing_sound.
    rewrite Hnil. split; [reflexivity|]. split; intros; discriminate. }
  rewrite generate_fresh by assumption.
  set (r := pack_loop pack_init (glyphs fi)).
  assert (Hnonneg : Forall (fun e => 0 <= surface_w (surface e.2) /\
                                     0 <= surface_h (surface e.2)) (glyphs fi)).
  { eapply Forall_impl; [exact Hpos|]. intros e [? ?]. lia. }
  pose proof (pack_loop_inv (glyphs fi) pack_init [] Hnonneg pack_init_inv)
    as (Hidx & _ & _ & _ & Hok & Hdis).
  fold r in Hidx, Hok, Hdis. simpl in Hok, Hdis.
  assert (Hopen : open_page_nonempty r.1).
  { apply pack_loop_open_page; simpl; auto; lia. }
  unfold packing_sound; simpl. split; [apply pack_loop_keys|]. split.
  - intros i c g Hi.
    destruct (pack_loop_lookup _ _ _ _ _ Hi) as (g0 & H0 & Hs & Hw & Hh).
    exists g0. repeat (split; [assumption|]).
    apply finish_placed; auto.
    rewrite Forall_forall in Hok. apply Hok.
    apply list_elem_of_fmap. exists (c, g). split; [reflexivity|].
    eapply list_elem_of_lookup_2; eauto.
  - intros i j ci cj gi gj Hne' Hi Hj Hsame.
    apply (all_disjoint_lookup (map snd r.2) i j); auto.
    + rewrite list_lookup_fmap. fold r in Hi. rewrite Hi. reflexivity.
    + rewrite list_lookup_fmap. fold r in Hj. rewrite Hj. reflexivity.
Qed.

(** The entries of the map after [generate_glyph_surfaces] on the empty
    map of a fresh object. *)
Lemma surfaces_fresh_lookup (rasterize : Z -> option SDL_Surface)
    (glyphs : list Z) (c : Z) (g : glyph_info) :
  generate_glyph_surfaces true rasterize glyphs ∅ !! c = Some g <->
  c ∈ glyphs /\
  exists sf, rasterize c = Some sf /\
             g = mkGlyph sf (mkRect 0 0 (surface_w sf) (surface_h sf)) 0%nat.
Proof.
  unfold generate_glyph_surfaces. simpl.
  destruct (bool_decide (glyphs = [])) eqn:Hnil.
  - apply bool_decide_eq_true in Hnil. subst glyphs.
    rewrite lookup_empty. split; [discriminate|].
    intros [H _]. inversion H.
  - rewrite foldl_store_glyph, lookup_empty.
    destruct (rasterize c) as [sf|].
    + destruct (bool_decide (c ∈ glyphs)) eqn:Hin.
      * apply bool_decide_eq_true in Hin. split.
        -- intros [= <-]. eauto.
        -- intros (_ & sf' & [= <-] & ->). reflexivity.
      * apply bool_decide_eq_false in Hin. split; [discriminate|].
        intros [H _]. contradiction.
    + split; [discriminate|]. intros (_ & sf & H & _). discriminate.
Qed.

Lemma ordered_entries (order : gmap Z glyph_info -> list (Z * glyph_info))
    (m : gmap Z glyph_info) :
  order m ≡ₚ map_to_list m ->
  NoDup (order m).*1 /\
  forall c g, (c, g) ∈ order m <-> m !! c = Some g.
Proof.
  intros Hperm. split.
  - rewrite Hperm. apply NoDup_fst_map_to_list.
  - intros c g. rewrite Hperm. apply elem_of_map_to_list.
Qed.

(** With glyphs of width 0 only, the packer records no page that the
    last glyph's index could name. *)
Lemma pack_loop_last_index (gl : list (Z * glyph_info)) (s : pack_state) :
  gl <> [] ->
  exists c g, last (pack_loop s gl).2 = Some (c, g) /\
              texture_index g = cur_index (pack_loop s gl).1.
Proof.
  revert s. induction gl as [|[c g] rest IH]; intros s Hne; [contradiction|].
  simpl. destruct (place s g) as [s1 g1] eqn:Hp.
  destruct (pack_loop s1 rest) as [s2 out] eqn:Hl. simpl.
  destruct rest as [|e rest'].
  - simpl in Hl. injection Hl as <- <-. exists c, g1. split; [reflexivity|].
    replace s1 with (place s g).1 by (rewrite Hp; reflexivity).
    replace g1 with (place s g).2 by (rewrite Hp; reflexivity).
    unfold place. case_place; reflexivity.
  - destruct (IH s1) as (c' & g' & Hlast & Hidx); [discriminate|].
    rewrite Hl in Hlast, Hidx. simpl in Hlast, Hidx.
    exists c', g'. split; [|exact Hidx].
    destruct out as [|o out']; [discriminate|]. exact Hlast.
Qed.

Lemma pack_loop_zero_width (gl : list (Z * glyph_info)) (s : pack_state) :
  Forall (fun e => surface_w (surface e.2) = 0) gl ->
  cur_x s = 0 -> texture_width s = 0 ->
  length (pages s) = cur_index s ->
  texture_width (pack_loop s gl).1 = 0 /\
  length (pages (pack_loop s gl).1) = cur_index (pack_loop s gl).1.
Proof.
  revert s. induction gl as [|[c g] rest IH]; intros s Hz Hx Hw Hlen;
    [simpl; auto|].
  inversion Hz as [|? ? Hg Hrest]; subst. simpl in Hg.
  simpl. destruct (place s g) as [s1 g1] eqn:Hp.
  destruct (pack_loop s1 rest) as [s2 out] eqn:Hl. simpl.
  specialize (IH s1 Hrest). rewrite Hl in IH. simpl in IH.
  unfold place in Hp. rewrite Hg, Hx in Hp.
  unfold max_texture_width in Hp. simpl in Hp.
  destruct (max_texture_height <=? _) in Hp; injection Hp as <- _;
    simpl in IH; apply IH; simpl; try lia.
  all: try (rewrite Hw; reflexivity).
  rewrite length_app. simpl. lia.
Qed.

Lemma atlas_entry (free : bool) (ok : nat -> bool)
    (gl : list (Z * glyph_info)) (c : Z) (slot : glyph_slot) :
  (c, slot) ∈ List.map (fun e =>
                (e.1, slot_after free (ok (texture_index e.2)) e.2)) gl <->
  exists g, (c, g) ∈ gl /\ slot = slot_after free (ok (texture_index g)) g.
Proof.
  rewrite list_elem_of_In, in_map_iff. split.
  - intros ([c' g] & Heq & Hin). simpl in Heq. injection Heq as -> <-.
    exists g. split; [apply list_elem_of_In; exact Hin | reflexivity].
  - intros (g & Hin & ->). exists (c, g).
    split; [reflexivity | apply list_elem_of_In; exact Hin].
Qed.

Lemma keys_index_ne {A} (l : list (Z * A)) (i j : nat) (ci cj : Z) (a b : A) :
  l !! i = Some (ci, a) -> l !! j = Some (cj, b) -> ci <> cj -> i <> j.
Proof. intros Hi Hj Hne ->. rewrite Hi in Hj. congruence. Qed.

(** [create] with a font whose glyphs all have a positive size builds the
    atlas: the font has one glyph per requested character that could be
    rasterised, however often the character was requested; each glyph's
    rectangle has the size of its bitmap and lies inside the bounds of
    the page it names; glyphs of one page do not overlap; a glyph's own
    surface is released exactly when the surface of its page could be
    created, a page has a texture exactly when its surface and its
    texture could be created; and every copy made goes to the rectangle
    of a glyph on that glyph's page. *)
Theorem create_builds_atlas
    (order : gmap Z glyph_info -> list (Z * glyph_info)) (al : allocator)
    (rasterize : Z -> option SDL_Surface) (glyphs : list Z) :
  (forall m, order m ≡ₚ map_to_list m) ->
  (forall c sf, c ∈ glyphs -> rasterize c = Some sf ->
                0 < surface_w sf /\ 0 < surface_h sf) ->
  exists a calls,
    create order al true rasterize glyphs = Built (a, calls) /\
    NoDup (atlas_glyphs a).*1 /\
    (forall c, c ∈ (atlas_glyphs a).*1 <->
               c ∈ glyphs /\ is_Some (rasterize c)) /\
    (forall c slot, (c, slot) ∈ atlas_glyphs a ->
       exists sf page,
         rasterize c = Some sf /\
         rect_w (slot_srcrect slot) = surface_w sf /\
         rect_h (slot_srcrect slot) = surface_h sf /\
         atlas_textures a !! slot_texture_index slot =
           Some (surface_ok al (slot_texture_index slot) &&
                 texture_ok al (slot_texture_index slot), page) /\
         rect_inside (slot_srcrect slot) page /\
         (slot_surface slot = None <->
          surface_ok al (slot_texture_index slot) = true)) /\
    (forall ci cj si sj,
       (ci, si) ∈ atlas_glyphs a -> (cj, sj) ∈ atlas_glyphs a -> ci <> cj ->
       slot_texture_index si = slot_texture_index sj ->
       ~ rects_overlap (slot_srcrect si) (slot_srcrect sj)) /\
    (forall character src page dst,
       In (BlitSurface character src page dst) calls ->
       surface_ok al page = true /\
       exists slot, (character, slot) ∈ atlas_glyphs a /\
                    slot_texture_index slot = page /\
                    slot_srcrect slot = dst /\
                    src = mkRect 0 0 (rect_w dst) (rect_h dst)).
Proof.
  intros Horder Hpos. unfold create.
  set (m := generate_glyph_surfaces true rasterize glyphs ∅).
  destruct (ordered_entries order m (Horder m)) as [Hnodup Hmem].
  set (fi0 := mkFontInfo (order m) []).
  set (fi := generate_glyph_srcrects fi0).
  assert (Hps : packing_sound fi0 fi).
  { apply packing_positive; [reflexivity|]. simpl.
    apply Forall_forall. intros [c g] Hin. simpl.
    apply Hmem, surfaces_fresh_lookup in Hin as (Hc & sf & Hr & ->).
    exact (Hpos c sf Hc Hr). }
  destruct Hps as (Hkeys & Hpage & Hdis). simpl in Hkeys, Hpage.
  assert (Hentry : forall c g, (c, g) ∈ Font.glyphs fi ->
            exists sf page, c ∈ glyphs /\ rasterize c = Some sf /\
              surface g = sf /\
              rect_w (srcrect g) = surface_w sf /\
              rect_h (srcrect g) = surface_h sf /\
              textures fi !! texture_index g = Some page /\
              rect_inside (srcrect g) page).
  { intros c g Hin. apply list_elem_of_lookup in Hin as [i Hi].
    destruct (Hpage i c g Hi)
      as (g0 & H0 & Hs & Hw & Hh & page & Hp & Hinside).
    apply list_elem_of_lookup_2, Hmem, surfaces_fresh_lookup in H0
      as (Hc & sf & Hr & ->).
    simpl in Hs, Hw, Hh. exists sf, page. auto 10. }
  assert (Hrange : indices_in_range fi).
  { apply Forall_forall. intros [c g] Hin. simpl.
    destruct (Hentry c g Hin) as (sf & page & _ & _ & _ & _ & _ & Hp & _).
    eapply lookup_lt_Some; exact Hp. }
  destruct (generate_glyph_textures_built al true fi Hrange)
    as (calls & Heq & Hcalls).
  eexists _, calls. split; [exact Heq|]. simpl.
  assert (Hfst : (List.map (fun e : Z * glyph_info =>
             (e.1, slot_after true (surface_ok al (texture_index e.2)) e.2))
             (Font.glyphs fi)).*1 = (order m).*1).
  { rewrite fmap_as_map, (fmap_as_map fst (order m)), <- Hkeys, List.map_map.
    reflexivity. }
  split; [rewrite Hfst; exact Hnodup|]. split; [|split; [|split]].
  - intros c. rewrite Hfst, list_elem_of_fmap. split.
    + intros ([c' g] & -> & Hin). simpl.
      apply Hmem, surfaces_fresh_lookup in Hin as (Hc & sf & Hr & _).
      split; [exact Hc | eauto].
    + intros (Hc & sf & Hr).
      eexists (c, _). split; [reflexivity|].
      apply Hmem, surfaces_fresh_lookup. eauto.
  - intros c slot Hin. apply atlas_entry in Hin as (g & Hin & ->).
    destruct (Hentry c g Hin)
      as (sf & page & _ & Hr & _ & Hw & Hh & Hp & Hinside).
    exists sf, page. simpl. repeat (split; [assumption|]).
    split; [|split; [exact Hinside|]].
    + rewrite list_lookup_imap, Hp. reflexivity.
    + destruct (surface_ok al (texture_index g)); simpl;
        split; congruence.
  - intros ci cj si sj Hi Hj Hne Hsame.
    apply atlas_entry in Hi as (gi & Hi & ->).
    apply atlas_entry in Hj as (gj & Hj & ->). simpl in *.
    apply list_elem_of_lookup in Hi as [i Hi].
    apply list_elem_of_lookup in Hj as [j Hj].
    exact (Hdis i j ci cj gi gj (keys_index_ne _ _ _ _ _ _ _ Hi Hj Hne)
                Hi Hj Hsame).
  - intros character src page dst Hc.
    destruct (Hcalls _ _ _ _ Hc) as (Hok & g & Hin & Hidx & Hdst & Hsrc).
    split; [exact Hok|].
    exists (slot_after true (surface_ok al (texture_index g)) g).
    split; [|simpl; auto].
    apply atlas_entry. exists g. split; [|reflexivity].
    apply list_elem_of_In. exact Hin.
Qed.

Lemma create_builds_atlas_witness :
  exists a calls,
    create sample_order sample_alloc true sample_rasterize [65; 32; 66; 65] =
      Built (a, calls) /\
    NoDup (atlas_glyphs a).*1 /\
    (forall c, c ∈ (atlas_glyphs a).*1 <->
               c ∈ [65; 32; 66; 65] /\ is_Some (sample_rasterize c)).
Proof.
  destruct (create_builds_atlas sample_order sample_alloc sample_rasterize
              [65; 32; 66; 65]) as (a & calls & H1 & H2 & H3 & _).
  - intros m. reflexivity.
  - intros c sf Hc.
    repeat (apply elem_of_cons in Hc as [->|Hc]); try (inversion Hc; fail).
    all: intros H; vm_compute in H; try discriminate.
    all: injection H as <-; simpl; lia.
  - exists a, calls. auto.
Defined.

(** When every glyph that could be rasterised is 0 pixels wide, [create]
    reads past the end of its vector of atlas surfaces: the packer
    records no page for the last glyph's index. *)
Theorem create_zero_width_out_of_range
    (order : gmap Z glyph_info -> list (Z * glyph_info)) (al : allocator)
    (rasterize : Z -> option SDL_Surface) (glyphs : list Z) :
  (forall m, order m ≡ₚ map_to_list m) ->
  (exists c, c ∈ glyphs /\ is_Some (rasterize c)) ->
  (forall c sf, c ∈ glyphs -> rasterize c = Some sf -> surface_w sf = 0) ->
  create order al true rasterize glyphs = OutOfRange.
Proof.
  intros Horder (c0 & Hc0 & sf0 & Hr0) Hzero. unfold create.
  set (m := generate_glyph_surfaces true rasterize glyphs ∅).
  destruct (ordered_entries order m (Horder m)) as [_ Hmem].
  assert (Hne : order m <> []).
  { assert (H0 : (c0, mkGlyph sf0 (mkRect 0 0 (surface_w sf0) (surface_h sf0))
                              0%nat) ∈ order m).
    { apply Hmem, surfaces_fresh_lookup. eauto. }
    intros Hnil. rewrite Hnil in H0. inversion H0. }
  apply generate_glyph_textures_faults.
  rewrite generate_fresh by (simpl; auto). simpl.
  unfold indices_in_range. simpl.
  destruct (pack_loop_last_index (order m) pack_init Hne)
    as (c & g & Hlast & Hidx).
  destruct (pack_loop_zero_width (order m) pack_init) as [Hw Hlen];
    try reflexivity.
  { apply Forall_forall. intros [c' g'] Hin. simpl.
    apply Hmem, surfaces_fresh_lookup in Hin as (Hc & sf & Hr & ->).
    exact (Hzero c' sf Hc Hr). }
  intros Hall. rewrite Forall_forall in Hall.
  assert (Hin : (c, g) ∈ (pack_loop pack_init (order m)).2).
  { apply last_Some in Hlast as [l' ->]. apply elem_of_app. right. left. }
  apply Hall in Hin. simpl in Hin.
  unfold finish in Hin. rewrite Hw in Hin. simpl in Hin. lia.
Qed.

Lemma create_zero_width_out_of_range_witness :
  create sample_order sample_alloc true
         (fun c => if c =? 65 then Some (mkSurface 0 5) else None) [65] =
    OutOfRange.
Proof.
  apply (create_zero_width_out_of_range sample_order sample_alloc
           (fun c => if c =? 65 then Some (mkSurface 0 5) else None) [65]).
  - intros m. reflexivity.
  - exists 65. split; [left | eexists; reflexivity].
  - intros c sf Hc.
    apply elem_of_cons in Hc as [->|Hc]; [|inversion Hc].
    intros H. injection H as <-. reflexivity.
Defined.

(** Without a font, or without characters, [create] makes no library
    call and the font has no glyph and no page. *)
Theorem create_without_font_or_characters
    (order : gmap Z glyph_info -> list (Z * glyph_info)) (al : allocator)
    (font : bool) (rasterize : Z -> option SDL_Surface) (glyphs : list Z) :
  (forall m, order m ≡ₚ map_to_list m) ->
  font = false \/ glyphs = [] ->
  create order al font rasterize glyphs = Built (mkAtlas [] [], []).
Proof.
  intros Horder Hnone. unfold create.
  assert (Hm : generate_glyph_surfaces font rasterize glyphs ∅ = ∅).
  { unfold generate_glyph_surfaces. destruct Hnone as [-> | ->];
      [reflexivity|].
    rewrite bool_decide_eq_true_2 by reflexivity.
    rewrite orb_true_r. reflexivity. }
  rewrite Hm.
  assert (Hnil : order ∅ = []).
  { apply Permutation_nil_r. rewrite Horder, map_to_list_empty. reflexivity. }
  rewrite Hnil. reflexivity.
Qed.

Lemma create_without_font_or_characters_witness :
  create sample_order sample_alloc false sample_rasterize [65; 66] =
    Built (mkAtlas [] [], []).
Proof.
  apply (create_without_font_or_characters sample_order sample_alloc false
           sample_rasterize [65; 66]).
  - intros m. reflexivity.
  - left. reflexivity.
Defined.

Lemma destroy_calls_from (k : nat) (texs : list (bool * SDL_Rect)) :
  let calls := concat (imap (fun i (t : bool * SDL_Rect) =>
                 if t.1 then [DestroyTexture (k + i)] else []) texs) in
  NoDup calls /\
  forall c, c ∈ calls <->
    exists i p, texs !! i = Some (true, p) /\ c = DestroyTexture (k + i).
Proof.
  revert k. induction texs as [|[ok p] rest IH]; intros k; simpl.
  - split; [constructor|]. intros c. split; [inversion 1|].
    intros (i & q & H & _). discriminate.
  - assert (Hext : imap ((fun i (t : bool * SDL_Rect) =>
                      if t.1 then [DestroyTexture (k + i)] else []) ∘ S) rest =
                   imap (fun i (t : bool * SDL_Rect) =>
                      if t.1 then [DestroyTexture (S k + i)] else []) rest).
    { apply imap_ext. intros i t _. simpl.
      replace (k + S i)%nat with (S (k + i)) by lia. reflexivity. }
    rewrite Hext. destruct (IH (S k)) as [Hnd Hmem]. clear IH Hext.
    assert (Hrest : forall c,
      c ∈ concat (imap (fun i (t : bool * SDL_Rect) =>
             if t.1 then [DestroyTexture (S k + i)] else []) rest) <->
      exists i q, (((ok, p) :: rest) !! S i = Some (true, q)) /\
                  c = DestroyTexture (k + S i)).
    { intros c. rewrite Hmem. split; intros (i & q & H1 & ->);
        exists i, q; (split; [exact H1 | f_equal; lia]). }
    destruct ok; simpl.
    + split.
      * constructor; [|exact Hnd]. rewrite Hrest.
        intros (i & q & _ & Heq). injection Heq. lia.
      * intros c. rewrite elem_of_cons, Hrest. split.
        -- intros [-> | (i & q & H1 & ->)].
           ++ exists 0%nat, p. split; [reflexivity | f_equal; lia].
           ++ exists (S i), q. auto.
        -- intros ([|i] & q & H1 & ->).
           ++ left. f_equal; lia.
           ++ right. exists i, q. auto.
    + split; [exact Hnd|].
      intros c. rewrite Hrest. split.
      * intros (i & q & H1 & ->). exists (S i), q. auto.
      * intros ([|i] & q & H1 & ->); [discriminate|]. exists i, q. auto.
Qed.

(** [destroy] destroys every texture that exists exactly once and no
    other, closes the font exactly when the object owns it and it is
    set, and makes no other call; afterwards the font has no glyph and
    no page, its font pointer is null if it was closed, and a second
    [destroy] makes no call and changes nothing. *)
Theorem destroy_releases_once (f : simple_bitmap_font) :
  let f' := (destroy f).1 in
  let calls := (destroy f).2 in
  NoDup calls /\
  (forall c, c ∈ calls <->
     (exists i p, atlas_textures (font_atlas f) !! i = Some (true, p) /\
                  c = DestroyTexture i) \/
     (c = CloseFont /\ destroy_font f = true /\ sdl_font f = true)) /\
  font_atlas f' = mkAtlas [] [] /\
  destroy_font f' = destroy_font f /\
  sdl_font f' = (sdl_font f && negb (destroy_font f)) /\
  destroy f' = (f', []).
Proof.
  destruct (destroy_calls_from 0 (atlas_textures (font_atlas f)))
    as [Hnd Hmem]. simpl in Hnd, Hmem.
  unfold destroy.
  destruct (destroy_font f) eqn:Hd, (sdl_font f) eqn:Hs; simpl.
  all: rewrite ?Hd; simpl.
  all: split; [|split; [|auto]].
  all: try exact Hnd.
  - apply NoDup_app. split; [exact Hnd|]. split; [|apply NoDup_singleton].
    intros c Hc Hc'. apply list_elem_of_singleton in Hc'. subst c.
    apply Hmem in Hc as (i & p & _ & Heq). discriminate.
  - intros c. rewrite elem_of_app, list_elem_of_singleton, Hmem. tauto.
  - intros c. rewrite Hmem. split; [auto|].
    intros [H | (_ & _ & H)]; [exact H | discriminate].
  - intros c. rewrite Hmem. split; [auto|].
    intros [H | (_ & H & _)]; [exact H | discriminate].
  - intros c. rewrite Hmem. split; [auto|].
    intros [H | (_ & H & _)]; [exact H | discriminate].
Qed.

End FontCreateFacts.

(** ** The calls of a frame *)

Module TraceFacts.
Import World WorldLogic WorldInv TraceDefs.
Import MonadFacts ArithFacts StepFacts AtomFacts WalkFacts DoneFacts LoopFacts
       RenderFacts.

Lemma layer_events_app (f : frame) (simg : option tile_image) (x y : Z)
    (p : SDL_Point) (a b : list event) :
  layer_events f simg x y p a -> layer_events f simg x y p b ->
  layer_events f simg x y p (a ++ b).
Proof.
  intros Ha Hb. induction Ha; simpl; try (constructor; assumption).
  exact Hb.
Qed.

Lemma alpha_restored_app (f : frame) (simg : option tile_image)
    (a b : list event) :
  alpha_restored f simg a -> alpha_restored f simg b ->
  alpha_restored f simg (a ++ b).
Proof.
  intros Ha Hb. induction Ha; simpl; try (constructor; assumption).
  exact Hb.
Qed.

Lemma layer_events_alpha (f : frame) (simg : option tile_image) (x y : Z)
    (p : SDL_Point) (evs : list event) :
  layer_events f simg x y p evs -> alpha_restored f simg evs.
Proof.
  intros H. induction H.
  - constructor.
  - apply ar_other; auto.
  - apply ar_other; auto.
  - apply ar_other; auto.
  - apply ar_selection; auto.
Qed.

Lemma other_calls_alpha (f : frame) (simg : option tile_image)
    (evs : list event) :
  Forall (fun e => is_selection_call e = false) evs ->
  alpha_restored f simg evs.
Proof.
  intros H. induction H; [constructor | apply ar_other; auto].
Qed.

Section Emits.
Context (simg : option tile_image) (P : list event -> Prop).
Hypothesis P_nil : P [].
Hypothesis P_app : forall a b, P a -> P b -> P (a ++ b).

Lemma emits_refl (s : rstate) : emits simg P s s.
Proof using P_nil.
  intros H. split; [exact H|]. exists []. rewrite app_nil_r. auto.
Qed.

Lemma emits_trans (a b c : rstate) :
  emits simg P a b -> emits simg P b c -> emits simg P a c.
Proof using P_app.
  intros Hab Hbc Ha. destruct (Hab Ha) as (Hb & n1 & H1 & P1).
  destruct (Hbc Hb) as (Hc & n2 & H2 & P2). split; [exact Hc|].
  exists (n1 ++ n2). rewrite H2, H1, app_assoc. auto.
Qed.

Lemma emits_quiet (s s' : rstate) :
  st_trace s' = st_trace s ->
  selection_image (st_map s') = selection_image (st_map s) ->
  emits simg P s s'.
Proof using P_nil.
  intros Ht Hm H. split; [congruence|]. exists [].
  rewrite app_nil_r. auto.
Qed.

Lemma emits_emit (e : event) : P [e] -> respects (emits simg P) (emit e).
Proof.
  intros He s s' r [= <- <-] H. split; [exact H|]. exists [e]. auto.
Qed.

End Emits.

Section Layers.
Context (f : frame) (simg : option tile_image) (x y : Z) (p : SDL_Point).

Local Abbreviation LE := (layer_events f simg x y p).
Local Abbreviation step := (emits simg LE).

Lemma LE_refl (s : rstate) : step s s.
Proof. apply emits_refl. constructor. Qed.

Lemma LE_trans (a b c : rstate) : step a b -> step b c -> step a c.
Proof. apply emits_trans. apply layer_events_app. Qed.

Ltac quiet :=
  repeat first
    [ apply respects_ret; apply LE_refl
    | apply respects_throw; apply LE_refl
    | apply respects_get_world; apply LE_refl
    | apply respects_bind; [apply LE_trans | | intros ?] ].

Lemma emits_resolve_image (l : nat) :
  respects step (resolve_image f x y l).
Proof.
  intros s s' r. unfold resolve_image. rewrite bind_get_world.
  assert (Hq : forall s1 : rstate,
            st_trace s1 = st_trace s ->
            selection_image (st_map s1) = selection_image (st_map s) ->
            step s s1).
  { intros s1. apply emits_quiet. constructor. }
  destruct (get_tile (map (st_world s)) x y) as [t|] eqn:Ht.
  - destruct (has_image t l) eqn:Hh.
    { intros [= <- <-]. apply LE_refl. }
    destruct (layer_has_default_images (map (st_world s)) l) eqn:Hd;
      [|intros [= <- <-]; apply LE_refl].
    unfold bind at 1, next_random.
    destruct (get_image _ _) as [img|] eqn:Himg; simpl.
    + cbv [bind store_image_id get_world modify_world emit ret]; simpl.
      rewrite Ht. intros [= <- <-] Hs. split; [exact Hs|].
      eexists. split; [reflexivity|]. repeat constructor.
    + unfold bind, throw; simpl. intros [= <- <-].
      apply Hq; reflexivity.
  - destruct (layer_has_default_images (map (st_world s)) l) eqn:Hd;
      [|intros [= <- <-]; apply LE_refl].
    unfold bind at 1, next_random.
    destruct (get_image _ _) as [img|]; simpl.
    + cbv [bind store_image_id get_world throw]; simpl.
      rewrite Ht. intros [= <- <-]. apply Hq; reflexivity.
    + unfold bind, throw; simpl. intros [= <- <-].
      apply Hq; reflexivity.
Qed.

(** One layer: the calls are those of the tile, and the flag is only
    set while the cursor is over the tile. *)
Lemma emits_render_layer (l : nat) (b : bool) (s s' : rstate)
    (r : result bool) :
  (b = true -> hit f p = true) ->
  render_layer f x y p l b s = (s', r) ->
  step s s' /\ (forall b', r = Done b' -> b' = true -> hit f p = true).
Proof.
  intros Hb. unfold render_layer. intros H.
  destruct (bind_run _ _ _ _ _ H) as [(s1 & res & H1 & H2)|(e & H1 & ->)];
    clear H.
  2:{ split; [eapply emits_resolve_image; exact H1 | discriminate]. }
  pose proof (emits_resolve_image l _ _ _ H1) as Hstep1.
  destruct res as [current_image|].
  2:{ injection H2 as <- <-. split; [exact Hstep1|].
      intros b' [= <-]. exact Hb. }
  rewrite bind_get_world in H2.
  set (w := st_world s1) in *.
  destruct (bind_run _ _ _ _ _ H2) as [(s2 & [] & H3 & H4)|(e & H3 & ->)];
    clear H2.
  2:{ exfalso. destruct current_image as [img|];
        [destruct (tile_has_image (map w) x y l)|]; discriminate. }
  assert (Hstep2 : step s1 s2).
  { destruct current_image as [img|].
    - destruct (tile_has_image (map w) x y l).
      + eapply emits_emit; [|exact H3]. repeat constructor.
      + injection H3 as <-. apply LE_refl.
    - injection H3 as <-. apply LE_refl. }
  assert (Hw2 : st_world s2 = w).
  { destruct current_image as [img|];
      [destruct (tile_has_image (map w) x y l)|];
      injection H3 as <-; reflexivity. }
  destruct (bind_run _ _ _ _ _ H4) as [(s3 & b3 & H5 & H6)|(e & H5 & ->)];
    clear H4.
  2:{ exfalso. destruct (hit f p); discriminate. }
  assert (Hb3 : b3 = true -> hit f p = true).
  { destruct (hit f p); [reflexivity|]. injection H5 as _ <-. exact Hb. }
  assert (Hstep3 : step s2 s3).
  { destruct (hit f p) eqn:Hhit.
    - injection H5 as <- _. intros Hs. split; [exact Hs|].
      exists [SetSelection p]. split; [reflexivity|].
      repeat constructor. exact Hhit.
    - injection H5 as <- _. apply LE_refl. }
  assert (Hsel3 : selection_image (st_map s3) = selection_image (map w)).
  { rewrite <- Hw2. destruct (hit f p); injection H5 as <- _; reflexivity. }
  destruct (bind_run _ _ _ _ _ H6) as [(s4 & [] & H7 & H8)|(e & H7 & ->)];
    clear H6.
  2:{ exfalso. destruct l; [destruct b3; [destruct (selection_image (map w))|]|];
        discriminate. }
  injection H8 as <- <-.
  assert (Hstep4 : step s3 s4).
  { destruct l; [|injection H7 as <-; apply LE_refl].
    destruct b3; [|injection H7 as <-; apply LE_refl].
    destruct (selection_image (map w)) as [img|] eqn:Himg;
      [|injection H7 as <-; apply LE_refl].
    injection H7 as <-. intros Hs. split; [exact Hs|].
    eexists. split; [simpl; rewrite <- !app_assoc; reflexivity|]. simpl.
    apply le_selection; [congruence | auto | constructor]. }
  split.
  - eapply LE_trans; [exact Hstep1|]. eapply LE_trans; [exact Hstep2|].
    eapply LE_trans; [exact Hstep3 | exact Hstep4].
  - intros b' [= <-]. exact Hb3.
Qed.

Lemma emits_layers (ls : list nat) :
  forall (b : bool) (s s' : rstate) (r : result bool),
  (b = true -> hit f p = true) ->
  for_fold ls b (render_layer f x y p) s = (s', r) ->
  step s s'.
Proof.
  induction ls as [|l ls IH]; intros b s s' r Hb H; simpl in H.
  - injection H as <- _. apply LE_refl.
  - destruct (bind_run _ _ _ _ _ H) as [(s1 & b1 & H1 & H2)|(e & H1 & _)].
    + destruct (emits_render_layer l b s s1 _ Hb H1) as [Hstep Hb1].
      eapply LE_trans; [exact Hstep|].
      eapply IH; [|exact H2]. apply Hb1. reflexivity.
    + eapply emits_render_layer; eauto.
Qed.

End Layers.

Lemma stop_alpha (f : frame) (simg : option tile_image) (s s1 : rstate)
    (evs : list event) (e : fault) (Q : list event -> Prop) :
  st_world s1 = st_world s ->
  st_trace s1 = st_trace s ++ evs ->
  Forall (fun e => is_selection_call e = false) evs ->
  selection_image (st_map s) = simg ->
  selection_image (st_map s1) = simg /\
  exists new, st_trace s1 = st_trace s ++ new /\
    alpha_restored f simg new /\
    (@Fault unit e = Done tt -> Q new).
Proof.
  intros Hw Ht Hevs Hs.
  split; [unfold st_map in *; rewrite Hw; exact Hs|].
  exists evs. split; [exact Ht|]. split; [|discriminate].
  apply other_calls_alpha. exact Hevs.
Qed.

(** One tile iteration: whatever its outcome the selection image is
    handled as [alpha_restored] says, and when it returns its calls are
    those of [tile_events]. *)
Lemma emits_render_tile (f : frame) (simg : option tile_image) (t : Q * Q)
    (s s' : rstate) (r : result unit) :
  render_tile f t.1 t.2 s = (s', r) ->
  selection_image (st_map s) = simg ->
  selection_image (st_map s') = simg /\
  exists new, st_trace s' = st_trace s ++ new /\
    alpha_restored f simg new /\
    (r = Done tt -> tile_events f simg t new).
Proof.
  unfold render_tile, tile_events, tile_index_of, tile_point_of.
  destruct (static_cast_unsigned t.1) as [x|].
  2:{ intros [= <- <-] Hs.
      apply (stop_alpha f simg s s []); auto using app_nil_r. }
  destruct (static_cast_unsigned t.2) as [y|].
  2:{ intros [= <- <-] Hs.
      apply (stop_alpha f simg s s []); auto using app_nil_r. }
  simpl. rewrite !bind_ret, bind_emit.
  destruct (static_cast_int t.1) as [px|].
  2:{ intros [= <- <-] Hs.
      apply (stop_alpha f simg s _ [GetTile x y]); auto. }
  destruct (static_cast_int t.2) as [py|].
  2:{ intros [= <- <-] Hs.
      apply (stop_alpha f simg s _ [GetTile x y]); auto. }
  simpl. rewrite !bind_ret, bind_get_world. simpl. intros H Hs.
  set (s0 := mkState (st_world s) (st_trace s ++ [GetTile x y]) (st_draws s))
    in *.
  assert (Hfold : exists sf rf,
            for_fold (seq 0 (length (layers (map (st_world s))))) false
                     (render_layer f x y (mkPoint px py)) s0 = (sf, rf) /\
            s' = sf /\ (r = Done tt -> exists b, rf = Done b)).
  { unfold bind in H.
    destruct (for_fold _ _ _ s0) as [sf [b|e]] eqn:Hf.
    - injection H as <- <-. exists sf, (Done b).
      split; [reflexivity|]. split; [reflexivity | eauto].
    - injection H as <- <-. exists sf, (Fault e).
      split; [reflexivity|]. split; [reflexivity | discriminate]. }
  destruct Hfold as (sf & rf & Hf & -> & Hr). clear H.
  apply (emits_layers f simg x y (mkPoint px py)) in Hf; [|discriminate].
  destruct (Hf Hs) as (Hs' & new & Ht & Hnew). split; [exact Hs'|].
  exists (GetTile x y :: new). split.
  { rewrite Ht. unfold s0. simpl. rewrite <- app_assoc. reflexivity. }
  split.
  - apply ar_other; [reflexivity|]. eapply layer_events_alpha; exact Hnew.
  - intros _. exists x, y, (mkPoint px py), new. auto.
Qed.

(** The tile loops, flattened. *)
Lemma emits_tiles (f : frame) (simg : option tile_image) (ts : list (Q * Q)) :
  forall (s s' : rstate) (r : result unit),
  for_each ts (fun t => render_tile f t.1 t.2) s = (s', r) ->
  selection_image (st_map s) = simg ->
  selection_image (st_map s') = simg /\
  exists new, st_trace s' = st_trace s ++ new /\
    alpha_restored f simg new /\
    (r = Done tt ->
     exists chunks, Forall2 (tile_events f simg) ts chunks /\
                    new = concat chunks).
Proof.
  induction ts as [|t ts IH]; intros s s' r H Hs; simpl in H.
  - injection H as <- <-. split; [exact Hs|]. exists [].
    rewrite app_nil_r. split; [reflexivity|]. split; [constructor|].
    intros _. exists []. split; [constructor | reflexivity].
  - destruct (bind_run _ _ _ _ _ H) as [(s1 & [] & H1 & H2)|(e & H1 & ->)].
    + destruct (emits_render_tile f simg t _ _ _ H1 Hs)
        as (Hs1 & n1 & Ht1 & Ha1 & Hd1).
      destruct (IH _ _ _ H2 Hs1) as (Hs' & n2 & Ht2 & Ha2 & Hd2).
      split; [exact Hs'|]. exists (n1 ++ n2).
      split; [rewrite Ht2, Ht1, app_assoc; reflexivity|].
      split; [apply alpha_restored_app; assumption|].
      intros Hr. destruct (Hd2 Hr) as (chunks & Hch & ->).
      exists (n1 :: chunks). split; [|reflexivity].
      constructor; [apply Hd1; reflexivity | exact Hch].
    + destruct (emits_render_tile f simg t _ _ _ H1 Hs)
        as (Hs1 & n1 & Ht1 & Ha1 & _).
      split; [exact Hs1|]. exists n1. split; [exact Ht1|].
      split; [exact Ha1 | discriminate].
Qed.

(** The loop over the game objects returns and calls each non-null
    object once, in list order. *)
Lemma objects_loop_trace (objs : list (option nat)) (s : rstate) :
  for_each objs (fun obj =>
     match obj with
     | Some o => emit (ObjectRender o)
     | None => ret tt
     end) s =
  (mkState (st_world s) (st_trace s ++ object_renders objs) (st_draws s),
   Done tt).
Proof.
  revert s. induction objs as [|[o|] objs IH]; intros s; simpl.
  - unfold object_renders. simpl. rewrite app_nil_r. destruct s; reflexivity.
  - rewrite bind_emit, IH. simpl. unfold object_renders. simpl.
    rewrite <- app_assoc. reflexivity.
  - rewrite bind_ret, IH. reflexivity.
Qed.

Lemma object_renders_alpha (f : frame) (simg : option tile_image)
    (objs : list (option nat)) :
  alpha_restored f simg (object_renders objs).
Proof.
  unfold object_renders. induction (omap id objs) as [|o l IH]; simpl.
  - constructor.
  - apply ar_other; auto.
Qed.

(** Every run of [render], whatever its outcome; and the whole trace of
    one that returns with a main camera. *)
Lemma render_trace (f : frame) (w : world) (s' : rstate) (r : result unit) :
  run_render f w = (s', r) ->
  selection_image (st_map s') = selection_image (map w) /\
  alpha_restored f (selection_image (map w)) (st_trace s') /\
  (forall camera, r = Done tt -> get_main_camera w = Some camera ->
   exists chunks,
     Forall2 (tile_events f (selection_image (map w))) (visible_tiles w)
             chunks /\
     st_trace s' =
       warning w ++ [SetClipRect (Some (camera_viewport camera))] ++
       concat chunks ++ object_renders (objects w) ++ [SetClipRect None]).
Proof.
  unfold run_render, render. rewrite bind_get_world. simpl.
  set (simg := selection_image (map w)).
  set (s0 := mkState w (warning w) 0%nat).
  assert (Hwarn : (if update_called w then ret tt else emit Warn)
                    (mkState w [] 0%nat) = (s0, Done tt)).
  { unfold s0, warning. destruct (update_called w); reflexivity. }
  assert (Hwa : alpha_restored f simg (warning w)).
  { unfold warning. destruct (update_called w);
      [constructor | apply ar_other; [reflexivity | constructor]]. }
  unfold bind at 1. rewrite Hwarn. unfold visible_tiles.
  destruct (get_main_camera w) as [camera|] eqn:Hcam.
  2:{ intros [= <- <-]. simpl. split; [reflexivity|].
      split; [exact Hwa | discriminate]. }
  rewrite bind_emit. unfold s0. simpl.
  set (clip := SetClipRect (Some (camera_viewport camera))).
  assert (Hca : alpha_restored f simg (warning w ++ [clip])).
  { apply alpha_restored_app; [exact Hwa|].
    apply ar_other; [reflexivity | constructor]. }
  destruct (max_tiles (current_x camera) _ _ _) as [mh|].
  2:{ intros [= <- <-]. simpl. split; [reflexivity|].
      split; [exact Hca | discriminate]. }
  destruct (max_tiles (current_y camera) _ _ _) as [mv|].
  2:{ intros [= <- <-]. simpl. split; [reflexivity|].
      split; [exact Hca | discriminate]. }
  simpl. rewrite !bind_ret. intros H.
  destruct (bind_run _ _ _ _ _ H) as [(s2 & [] & Htiles & Hrest)|(e & Htiles & ->)];
    clear H; rewrite for_each_nested in Htiles;
    destruct (emits_tiles f simg _ _ _ _ Htiles eq_refl)
      as (Hs2 & new & Ht2 & Ha2 & Hd2); simpl in Ht2.
  2:{ split; [exact Hs2|]. split; [|discriminate].
      rewrite Ht2. apply alpha_restored_app; assumption. }
  unfold bind at 1 in Hrest. rewrite objects_loop_trace in Hrest.
  rewrite bind_emit in Hrest. injection Hrest as <- <-. simpl.
  split; [exact Hs2|]. split.
  - rewrite Ht2.
    apply alpha_restored_app;
      [apply alpha_restored_app;
         [apply alpha_restored_app; [exact Hca | exact Ha2]
         | apply object_renders_alpha]
      | apply ar_other; [reflexivity | constructor]].
  - intros camera' _ [= <-].
    destruct (Hd2 eq_refl) as (chunks & Hch & ->).
    exists chunks. split; [exact Hch|].
    rewrite Ht2. rewrite <- !app_assoc. reflexivity.
Qed.

End TraceFacts.

(** ** The visible region *)

Module RegionMore.
Import World WorldLogic WorldInv ClaimDefs TraceDefs.
Import ListFacts ArithFacts RegionFacts FrameClaims.











End RegionMore.

(** ** Frames: what is called, and in which order *)

Module FrameCalls.
Import World WorldLogic WorldInv ClaimDefs Scenes WorldMore TraceDefs MoreScenes.
Import MonadFacts ArithFacts StepFacts AtomFacts WalkFacts RegionFacts
       FrameClaims RenderFacts TraceFacts RegionMore.



(** Whatever the outcome of a frame, the selection image is only drawn
    with the map's selection image, over a tile under the cursor, and
    every time between setting the alpha of its texture to 90 and
    setting it back to 255: the texture is never left translucent, also
    when the frame stops at a fault. *)
Theorem render_restores_alpha (f : frame) (w : world) :
  alpha_restored f (selection_image (map w)) (st_trace (run_render f w).1).
Proof.
  destruct (run_render f w) as [s' r] eqn:Hrun.
  destruct (render_trace f w s' r Hrun) as (_ & Halpha & _). exact Halpha.
Qed.










End FrameCalls.

(** ** The other operations of the world *)

Module WorldOpsFacts.
Import World WorldLogic WorldInv ClaimDefs Scenes WorldMore TraceDefs MoreScenes.
Import MonadFacts ArithFacts StepFacts AtomFacts WalkFacts RegionFacts
       FrameClaims LoopFacts RenderFacts TraceFacts RegionMore.



Lemma no_enabled_camera (w : world) :
  Forall (fun c => enabled c = false) (cameras w) ->
  get_main_camera w = None.
Proof.
  unfold get_main_camera. intros H.
  induction H as [|c cs Hc _ IH]; simpl; [reflexivity|].
  rewrite Hc. exact IH.
Qed.

(** While no camera of the world is enabled, a frame returns at once:
    it makes no call but the warning and changes nothing, the
    [update_called] flag included; both tile counts are 0 whatever the
    tile size; and an added object is handed a null camera. *)
Theorem world_without_enabled_camera (f : frame) (w : world) (o : nat) :
  Forall (fun c => enabled c = false) (cameras w) ->
  run_render f w = (mkState w (warning w) 0%nat, Done tt) /\
  get_max_horizontal_tiles w = Some 0 /\
  get_max_vertical_tiles w = Some 0 /\
  (add_object w (Some o)).2 = [SetupTransform o None (map w)].
Proof.
  intros H. apply no_enabled_camera in H.
  unfold get_max_horizontal_tiles, get_max_vertical_tiles, add_object.
  rewrite H. repeat split.
  unfold run_render, render. rewrite bind_get_world. simpl. rewrite H.
  unfold warning. destruct (update_called w); reflexivity.
Qed.

Lemma world_without_enabled_camera_witness :
  run_render cursor_nowhere world4_no_camera =
    (mkState world4_no_camera (warning world4_no_camera) 0%nat, Done tt) /\
  get_max_horizontal_tiles world4_no_camera = Some 0 /\
  get_max_vertical_tiles world4_no_camera = Some 0 /\
  (add_object world4_no_camera (Some 1%nat)).2 =
    [SetupTransform 1%nat None (map world4_no_camera)].
Proof.
  apply (world_without_enabled_camera cursor_nowhere world4_no_camera 1%nat).
  constructor.
Defined.




End WorldOpsFacts.

(** ** Game objects *)

Module ObjectFacts.
Import World WorldLogic WorldInv ClaimDefs Scenes WorldMore TraceDefs MoreScenes
       ObjectDefs.
Import MonadFacts ArithFacts StepFacts AtomFacts WalkFacts RegionFacts
       FrameClaims LoopFacts RenderFacts TraceFacts RegionMore.

Lemma apply_op_inv (m : tile_map) (main_camera : option camera) (w w' : world)
    (op : world_op) :
  world_inv m main_camera w -> apply_op w op = Some w' ->
  world_inv m main_camera w'.
Proof.
  intros (Hobj & Hcam & Hconf & Htiles). destruct op as [|f|p| |obj|obj];
    simpl.
  - intros [= <-]. repeat split; auto; try apply Htiles.
  - destruct (run_render f w) as [s r] eqn:Hrun.
    destruct r as [[]|e]; [|discriminate]. intros [= <-].
    unfold run_render in Hrun.
    apply (step_render (fun _ _ => True) (fun _ => True) f) in Hrun; auto.
    destruct Hrun as [Hc1 Hc2 Hc3 Hc4 _ _ _ _ _].
    unfold st_map in *. simpl in *. unfold world_inv.
    rewrite Hc3, Hc2, Hc1. repeat split; auto.
    + intros H. apply Htiles, Hc4, H.
    + intros H. apply Hc4, Htiles, H.
  - intros [= <-]. repeat split; auto; try apply Htiles.
  - intros [= <-]. repeat split; auto; try apply Htiles.
  - intros [= <-]. destruct obj as [o|]; simpl.
    + repeat split; auto; try apply Htiles.
      apply Forall_app. split; [exact Hobj|]. repeat constructor. discriminate.
    + repeat split; auto; try apply Htiles.
  - intros [= <-]. destruct obj as [o|]; simpl.
    + repeat split; auto; try apply Htiles.
      apply List.Forall_forall. intros x Hx.
      apply filter_In in Hx as [Hx _].
      rewrite List.Forall_forall in Hobj. apply Hobj, Hx.
    + repeat split; auto; try apply Htiles.
Qed.

(** Whatever operations a world has gone through since its construction
    (frames that returned, updates, selections, objects added and
    removed), its object list holds no null pointer, its cameras are
    those of the constructor, and its map has the dimensions, layers,
    images and tiles it was built with. *)
Theorem world_operations_invariant (m : tile_map)
    (main_camera : option camera) (ops : list world_op) (w' : world) :
  apply_ops ops (new_world m main_camera) = Some w' ->
  Forall (fun o => o <> None) (objects w') /\
  cameras w' = option_list main_camera /\
  map_config (map w') = map_config m /\
  (forall x y, is_Some (get_tile (map w') x y) <-> is_Some (get_tile m x y)).
Proof.
  assert (Hgen : forall ops w, world_inv m main_camera w ->
            apply_ops ops w = Some w' -> world_inv m main_camera w').
  { clear ops. induction ops as [|op ops IH]; intros w Hinv; simpl.
    - intros [= <-]. exact Hinv.
    - destruct (apply_op w op) as [w1|] eqn:Hop; [|discriminate].
      apply IH. eapply apply_op_inv; eauto. }
  apply Hgen. repeat split; auto.
Qed.

Lemma world_operations_invariant_witness :
  exists w',
    apply_ops session (new_world map4 (Some camera0)) = Some w' /\
    Forall (fun o => o <> None) (objects w') /\
    cameras w' = [camera0] /\
    objects w' = [Some 2%nat].
Proof.
  destruct (apply_ops session (new_world map4 (Some camera0))) as [w'|] eqn:H.
  - exists w'. split; [reflexivity|].
    destruct (world_operations_invariant map4 (Some camera0) session w' H)
      as (H1 & H2 & _).
    split; [exact H1|]. split; [exact H2|].
    vm_compute in H. injection H as <-. reflexivity.
  - vm_compute in H. discriminate.
Defined.

Lemma rendered_objects_app (a b : list event) :
  rendered_objects (a ++ b) = rendered_objects a ++ rendered_objects b.
Proof. unfold rendered_objects. apply omap_app. Qed.

Lemma layer_events_objects (f : frame) (simg : option tile_image) (x y : Z)
    (p : SDL_Point) (evs : list event) :
  layer_events f simg x y p evs -> rendered_objects evs = [].
Proof. intros H. induction H; simpl; auto. Qed.

Lemma chunks_objects (f : frame) (simg : option tile_image)
    (ts : list (Q * Q)) (chunks : list (list event)) :
  Forall2 (tile_events f simg) ts chunks ->
  rendered_objects (concat chunks) = [].
Proof.
  intros H. induction H as [|t chunk ts chunks Ht _ IH]; [reflexivity|].
  simpl. rewrite rendered_objects_app, IH.
  destruct Ht as (x & y & p & rest & _ & _ & -> & Hrest).
  simpl. rewrite (layer_events_objects _ _ _ _ _ _ Hrest). reflexivity.
Qed.

Lemma object_renders_objects (objs : list (option nat)) :
  rendered_objects (object_renders objs) = omap id objs.
Proof.
  unfold object_renders. induction (omap id objs) as [|o l IH]; simpl;
    [reflexivity|].
  unfold rendered_objects in *. simpl. rewrite IH. reflexivity.
Qed.

(** The objects a returning frame with a main camera renders. *)
Lemma render_objects (f : frame) (w : world) (camera : camera) (s' : rstate) :
  get_main_camera w = Some camera ->
  run_render f w = (s', Done tt) ->
  rendered_objects (st_trace s') = omap id (objects w).
Proof.
  intros Hcam Hrun.
  destruct (render_trace f w s' _ Hrun) as (_ & _ & Hshape).
  destruct (Hshape camera eq_refl Hcam) as (chunks & Hch & ->).
  rewrite !rendered_objects_app, (chunks_objects _ _ _ _ Hch),
    object_renders_objects.
  unfold warning. destruct (update_called w); simpl;
    rewrite app_nil_r; reflexivity.
Qed.

Lemma omap_id_filter (o : nat) (objs : list (option nat)) :
  omap id (List.filter (fun x => negb (bool_decide (x = Some o))) objs) =
  List.filter (fun x => negb (bool_decide (x = o))) (omap id objs).
Proof.
  induction objs as [|[x|] objs IH]; [reflexivity| |exact IH].
  cbn [List.filter omap list_omap id]. rewrite <- IH.
  destruct (decide (x = o)) as [->|Hne].
  - rewrite !bool_decide_eq_true_2 by reflexivity. reflexivity.
  - rewrite !bool_decide_eq_false_2 by congruence. reflexivity.
Qed.

(** A returning frame with a main camera calls the render callback of
    the stored objects in the order they were added, once for each time
    an object was added: an object added again is rendered again, last;
    after [remove_object] it is not rendered at all, however often it
    had been added, and the other objects are rendered as before. *)
Theorem render_follows_object_list (f : frame) (w : world) (camera : camera)
    (o : nat) :
  get_main_camera w = Some camera ->
  (forall s', run_render f w = (s', Done tt) ->
     rendered_objects (st_trace s') = omap id (objects w)) /\
  (forall s', run_render f (add_object w (Some o)).1 = (s', Done tt) ->
     rendered_objects (st_trace s') = omap id (objects w) ++ [o]) /\
  (forall s', run_render f (remove_object w (Some o)) = (s', Done tt) ->
     rendered_objects (st_trace s') =
       List.filter (fun x => negb (bool_decide (x = o)))
                   (omap id (objects w)) /\
     ~ In o (rendered_objects (st_trace s'))).
Proof.
  intros Hcam. split; [|split].
  - intros s' Hrun. eapply render_objects; eauto.
  - intros s' Hrun.
    rewrite (render_objects f (add_object w (Some o)).1 camera s' Hcam Hrun).
    simpl. rewrite omap_app. reflexivity.
  - intros s' Hrun.
    rewrite (render_objects f (remove_object w (Some o)) camera s' Hcam Hrun).
    simpl. rewrite omap_id_filter. split; [reflexivity|].
    intros Hin. apply filter_In in Hin as [_ Hin].
    rewrite bool_decide_eq_true_2 in Hin by reflexivity. discriminate.
Qed.

Lemma render_follows_object_list_witness :
  rendered_objects
    (st_trace (run_render cursor_nowhere world4_objects).1) =
    [1%nat; 2%nat; 1%nat] /\
  rendered_objects
    (st_trace (run_render cursor_nowhere
                 (remove_object world4_objects (Some 1%nat))).1) = [2%nat].
Proof.
  destruct (render_follows_object_list cursor_nowhere world4_objects camera0
              1%nat) as (H1 & _ & H3); [reflexivity|].
  split.
  - apply (H1 (run_render cursor_nowhere world4_objects).1).
    vm_compute. reflexivity.
  - apply (H3 (run_render cursor_nowhere
                 (remove_object world4_objects (Some 1%nat))).1).
    vm_compute. reflexivity.
Defined.

(** [remove_object] undoes [add_object]: removing an object that was
    just added gives the world with the object's earlier entries removed
    too, which is the world itself if it had none; adding neither
    reorders nor drops entries. *)
Theorem add_then_remove_object (w : world) (o : nat) :
  remove_object (add_object w (Some o)).1 (Some o) =
    remove_object w (Some o) /\
  (~ In (Some o) (objects w) ->
   remove_object (add_object w (Some o)).1 (Some o) = w) /\
  objects (add_object w (Some o)).1 = objects w ++ [Some o] /\
  add_object w None = (w, []) /\ remove_object w None = w.
Proof.
  assert (Heq : remove_object (add_object w (Some o)).1 (Some o) =
                remove_object w (Some o)).
  { unfold remove_object, add_object. simpl. f_equal.
    rewrite List.filter_app. simpl.
    rewrite bool_decide_eq_true_2 by reflexivity. simpl.
    apply app_nil_r. }
  split; [exact Heq|]. split; [|auto].
  intros Hnin. rewrite Heq. clear Heq. unfold remove_object.
  destruct w as [m c objs p u]. simpl in *. f_equal.
  induction objs as [|x objs IH]; [reflexivity|]. simpl.
  destruct (decide (x = Some o)) as [->|Hne].
  - exfalso. apply Hnin. left. reflexivity.
  - rewrite bool_decide_eq_false_2 by exact Hne. simpl. f_equal.
    apply IH. intros H. apply Hnin. right. exact H.
Qed.

Lemma add_then_remove_object_witness :
  remove_object (add_object world4 (Some 5%nat)).1 (Some 5%nat) = world4.
Proof.
  refine (proj1 (proj2 (add_then_remove_object world4 5%nat)) _).
  simpl. tauto.
Defined.

End ObjectFacts.

(** ** Frames that return *)

Module ReturnFacts.
Import World WorldLogic WorldInv ClaimDefs Scenes TraceDefs ReturnDefs.
Import MonadFacts ArithFacts BoundClaims StepFacts AtomFacts WalkFacts
       RegionFacts FrameClaims LoopFacts RenderFacts TraceFacts.

Local Abbreviation any_step f := (frame_step (fun _ _ => True) (fun _ => True) f).










End ReturnFacts.

(** ** The warning of a stale transform *)

Module WarnFacts.
Import World WorldLogic WorldInv Scenes TraceDefs WarnDefs.
Import MonadFacts WalkFacts LoopFacts RenderFacts TraceFacts.

Lemma no_warning_refl (s : rstate) : adds_no_warning s s.
Proof. exists []. rewrite app_nil_r. auto. Qed.

Lemma no_warning_trans (a b c : rstate) :
  adds_no_warning a b -> adds_no_warning b c -> adds_no_warning a c.
Proof.
  intros (n1 & H1 & W1) (n2 & H2 & W2). exists (n1 ++ n2).
  split; [rewrite H2, H1, app_assoc; reflexivity|].
  intros H. apply in_app_or in H. tauto.
Qed.

Lemma no_warning_emit (e : event) :
  is_warning e = false -> respects adds_no_warning (emit e).
Proof.
  intros He s s' r [= <- <-]. exists [e]. split; [reflexivity|].
  intros [Heq|[]]. subst e. discriminate.
Qed.

Lemma no_warning_quiet {A} (m : M A) :
  (forall s s' r, m s = (s', r) -> st_trace s' = st_trace s) ->
  respects adds_no_warning m.
Proof.
  intros H s s' r Hm. exists []. rewrite app_nil_r. split; [|auto].
  eapply H, Hm.
Qed.

Ltac calm :=
  repeat first
    [ apply respects_ret; apply no_warning_refl
    | apply respects_throw; apply no_warning_refl
    | apply respects_get_world; apply no_warning_refl
    | apply no_warning_emit; reflexivity
    | apply no_warning_quiet; intros ? ? ? [= <- <-]; reflexivity
    | apply respects_bind_defined; [apply no_warning_refl | intros ? ?]
    | apply respects_bind; [apply no_warning_trans | | intros ?] ].

Lemma no_warning_resolve_image (f : frame) (x y : Z) (l : nat) :
  respects adds_no_warning (resolve_image f x y l).
Proof.
  unfold resolve_image. apply respects_bind; [apply no_warning_trans|calm|].
  intros w. destruct (match get_tile (map w) x y with
                      | Some t => has_image t l
                      | None => false
                      end); [calm|].
  destruct (layer_has_default_images (map w) l); [|calm].
  apply respects_bind; [apply no_warning_trans|calm|]. intros r.
  apply respects_bind_defined; [apply no_warning_refl|]. intros img _.
  apply respects_bind; [apply no_warning_trans| |intros ?; calm].
  unfold store_image_id.
  apply respects_bind; [apply no_warning_trans|calm|]. intros w'.
  destruct (get_tile (map w') x y); calm.
Qed.

Lemma no_warning_render_layer (f : frame) (x y : Z) (p : SDL_Point) (l : nat)
    (b : bool) :
  respects adds_no_warning (render_layer f x y p l b).
Proof.
  unfold render_layer.
  apply respects_bind;
    [apply no_warning_trans | apply no_warning_resolve_image|].
  intros [current_image|]; [|calm].
  apply respects_bind; [apply no_warning_trans|calm|]. intros w.
  apply respects_bind; [apply no_warning_trans| |].
  { destruct current_image as [img|]; [|calm].
    destruct (tile_has_image (map w) x y l); calm. }
  intros _.
  apply respects_bind; [apply no_warning_trans| |].
  { destruct (hit f p); [|calm]. unfold select_tile. calm. }
  intros is_selected'.
  apply respects_bind; [apply no_warning_trans| |intros ?; calm].
  destruct l; [|calm]. destruct is_selected'; [|calm].
  destruct (selection_image (map w)); calm.
Qed.

Lemma no_warning_render_tile (f : frame) (tx ty : Q) :
  respects adds_no_warning (render_tile f tx ty).
Proof.
  unfold render_tile. calm.
  apply respects_for_fold; [apply no_warning_refl | apply no_warning_trans|].
  intros l b _. apply no_warning_render_layer.
Qed.

(** Whatever its outcome, [render] writes the warning once, before any
    other call, if [update] was not called, and never otherwise. *)
Lemma render_warning (f : frame) (w : world) :
  exists rest,
    st_trace (run_render f w).1 = warning w ++ rest /\ ~ In Warn rest.
Proof.
  unfold run_render, render. rewrite bind_get_world. simpl.
  set (s0 := mkState w (warning w) 0%nat).
  assert (Hwarn : (if update_called w then ret tt else emit Warn)
                    (mkState w [] 0%nat) = (s0, Done tt)).
  { unfold s0, warning. destruct (update_called w); reflexivity. }
  unfold bind at 1. rewrite Hwarn.
  match goal with
  | |- context [?m s0] =>
      assert (Hr : respects adds_no_warning m);
        [|destruct (m s0) as [s' r] eqn:Hm; exact (Hr _ _ _ Hm)]
  end.
  destruct (get_main_camera w) as [camera|]; [|calm].
  calm.
  - apply respects_for_each; [apply no_warning_refl | apply no_warning_trans|].
    intros ty _.
    apply respects_for_each; [apply no_warning_refl | apply no_warning_trans|].
    intros tx _. apply no_warning_render_tile.
  - apply respects_for_each; [apply no_warning_refl | apply no_warning_trans|].
    intros [o|] _; calm.
Qed.

(** [render] writes the warning exactly when [update] was not called
    since the last frame that reached a camera.  Whatever the outcome of
    a frame, the warning is its first call if [update_called] is not
    set, and it is written nowhere else.  So there is none right after
    [update]; there is one, first, in the frame after a frame that
    returned with a main camera; and none in the frame after one that
    found no camera, if [update] had been called before that one. *)
Theorem render_warns_when_stale (f f2 : frame) (w : world) :
  (exists rest, st_trace (run_render f w).1 = warning w ++ rest /\
                ~ In Warn rest) /\
  ~ In Warn (st_trace (run_render f (update w)).1) /\
  (forall camera s', get_main_camera w = Some camera ->
     run_render f w = (s', Done tt) ->
     exists rest, st_trace (run_render f2 (st_world s')).1 = Warn :: rest /\
                  ~ In Warn rest) /\
  (get_main_camera w = None ->
   ~ In Warn (st_trace (run_render f2
                          (st_world (run_render f (update w)).1)).1)).
Proof.
  split; [|split; [|split]].
  - apply render_warning.
  - destruct (render_warning f (update w)) as (rest & -> & Hrest).
    exact Hrest.
  - intros camera s' Hcam Hrun.
    destruct (render_warning f2 (st_world s')) as (rest & Ht & Hrest).
    exists rest. split; [|exact Hrest]. rewrite Ht.
    unfold run_render in Hrun. apply render_done in Hrun. simpl in Hrun.
    rewrite Hcam in Hrun. destruct Hrun as (_ & _ & _ & _ & _ & _ & Hflag).
    unfold warning. rewrite Hflag. reflexivity.
  - intros Hcam.
    destruct (run_render f (update w)) as [s' r] eqn:Hrun.
    assert (Hw : st_world s' = update w).
    { unfold run_render, render in Hrun. rewrite bind_get_world in Hrun.
      simpl in Hrun. unfold get_main_camera in *. simpl in Hrun.
      rewrite Hcam in Hrun. injection Hrun as <- _. reflexivity. }
    simpl. rewrite Hw.
    destruct (render_warning f2 (update w)) as (rest & -> & Hrest).
    exact Hrest.
Qed.

End WarnFacts.
